(** * The replicated SQL store of consul: a shallow embedding

    The development follows the Go sources

    - [agent/consul/server_lookup.go]   (the peer directory),
    - [agent/consul/state/sqldb.go]     (the replicated store),
    - [agent/structs/sqldb.go]          (the wire data model),
    - [agent/consul/sqldb_endpoint.go]  (the consensus-driven endpoint).

    Go maps are [gmap]s, structs are records, methods with a pointer
    receiver take the receiver's value and give the updated value back,
    and a Go [error] result is the [Err] case of [result]. *)

From stdpp Require Import gmap strings list fin_maps.

Open Scope string_scope.
Open Scope list_scope.

(** ** Go values shared by all packages *)

(** The [error] values that occur in the sources.  [errors.New] and
    [fmt.Errorf] allocate a value of their own, so the sentinel
    [ErrStoreInvalidState] is different from every error that the
    operating system, the engine or raft reports. *)
Inductive error : Type :=
| ErrStoreInvalidState            (* errors.New("store not in valid state") *)
| Errorf (msg : string)           (* fmt.Errorf(...) *)
| ErrNotExist (path : string)     (* *os.PathError wrapping ENOENT *)
| ErrNotLeader                    (* consul's ErrNotLeader *)
| RaftErrNotLeader                (* raft.ErrNotLeader *)
| EnvError (msg : string).        (* any other failure of the OS, engine or raft *)

#[global] Instance error_eq_dec : EqDecision error.
Proof. solve_decision. Defined.

Definition Error (e : error) : string :=
  match e with
  | ErrStoreInvalidState => "store not in valid state"
  | Errorf msg => msg
  | ErrNotExist path => "remove " +:+ path +:+ ": no such file or directory"
  | ErrNotLeader => "No cluster leader"
  | RaftErrNotLeader => "node is not the leader"
  | EnvError msg => msg
  end.

(** How a Go call ends: it returns normally ([Ok], with a nil [error]
    where the function has one), it returns a non-nil [error], or it
    panics. *)
Inductive result (A : Type) : Type :=
| Ok (a : A)
| Err (e : error)
| Panic (msg : string).
Arguments Ok {A} a.
Arguments Err {A} e.
Arguments Panic {A} msg.

Definition nil_deref : string :=
  "runtime error: invalid memory address or nil pointer dereference".

(** ** The peer directory: [agent/consul/server_lookup.go] *)

Module metadata.
(** [metadata.Server]; the directory reads [ID] and [Addr.String()]
    only, the rest of the struct is the auxiliary [Name]. *)
Record Server : Type := mkServer {
  ID : string;
  Addr : string;      (* the value of server.Addr.String() *)
  Name : string
}.

#[global] Instance Server_eq_dec : EqDecision Server.
Proof. solve_decision. Defined.
End metadata.

Module ServerLookup.
Import metadata.

(** [*metadata.Server] values are never written through by the
    directory, so a pointer is modelled by the record it points to. *)
Record ServerLookup : Type := mkServerLookup {
  addressToServer : gmap string Server;   (* map[raft.ServerAddress]*metadata.Server *)
  idToServer : gmap string Server         (* map[raft.ServerID]*metadata.Server *)
}.

Definition NewServerLookup : ServerLookup :=
  {| addressToServer := ∅; idToServer := ∅ |}.

Definition AddServer (sl : ServerLookup) (server : Server) : ServerLookup :=
  {| addressToServer := <[Addr server := server]> (addressToServer sl);
     idToServer := <[ID server := server]> (idToServer sl) |}.

Definition RemoveServer (sl : ServerLookup) (server : Server) : ServerLookup :=
  {| addressToServer := delete (Addr server) (addressToServer sl);
     idToServer := delete (ID server) (idToServer sl) |}.

Definition not_found (id : string) : error :=
  Errorf ("Could not find address for server id " +:+ id).

(** [ServerAddr] returns [(raft.ServerAddress, error)]. *)
Definition ServerAddr (sl : ServerLookup) (id : string) : string * option error :=
  match idToServer sl !! id with
  | None => ("", Some (not_found id))
  | Some svr => (Addr svr, None)
  end.

(** [Server] returns a nil pointer for an unknown address. *)
Definition Server (sl : ServerLookup) (addr : string) : option metadata.Server :=
  addressToServer sl !! addr.

(** [Servers] ranges over a Go map: the order is unspecified, the
    model takes the order of [map_to_list]. *)
Definition Servers (sl : ServerLookup) : list metadata.Server :=
  (map_to_list (addressToServer sl)).*2.

(** Histories of directory updates, as the serf event handlers
    ([lanNodeJoin], [lanNodeFailed]) produce them. *)
Inductive Op : Type :=
| OpAdd (server : metadata.Server)
| OpRemove (server : metadata.Server).

Definition op_server (op : Op) : metadata.Server :=
  match op with OpAdd s => s | OpRemove s => s end.

Definition apply_op (sl : ServerLookup) (op : Op) : ServerLookup :=
  match op with
  | OpAdd s => AddServer sl s
  | OpRemove s => RemoveServer sl s
  end.

Definition run (ops : list Op) (sl : ServerLookup) : ServerLookup :=
  foldl apply_op sl ops.

(** [p] was added in the history and not removed afterwards. *)
Definition added_not_removed (p : metadata.Server) (ops : list Op) : Prop :=
  ∃ pre post, ops = pre ++ OpAdd p :: post ∧ OpRemove p ∉ post.

(** An update that concerns a peer with another id and another
    address than [p]. *)
Definition unrelated (p : metadata.Server) (op : Op) : Prop :=
  ID (op_server op) ≠ ID p ∧ Addr (op_server op) ≠ Addr p.

Definition both_found (sl : ServerLookup) (p : metadata.Server) : Prop :=
  ServerAddr sl (ID p) = (Addr p, None) ∧ Server sl (Addr p) = Some p.

Definition both_absent (sl : ServerLookup) (p : metadata.Server) : Prop :=
  ServerAddr sl (ID p) = ("", Some (not_found (ID p))) ∧ Server sl (Addr p) = None.

End ServerLookup.

(** ** A state-and-error monad for Go function bodies

    A body is a function of the mutable state it works on.  [bind] is
    the idiom [v, err := f(); if err != nil { return err }]: an error
    or a panic of [f] ends the body.  [try] is [err := f()] with [err]
    inspected by the caller, and [defer] runs a deferred call once the
    body has ended, however it ended, and discards its result. *)

Definition M (S A : Type) : Type := S → S * result A.

Definition ret {S A : Type} (a : A) : M S A := λ s, (s, Ok a).
Definition throw {S A : Type} (e : error) : M S A := λ s, (s, Err e).
Definition panic {S A : Type} (msg : string) : M S A := λ s, (s, Panic msg).

Definition bind {S A B : Type} (c : M S A) (k : A → M S B) : M S B :=
  λ s, match c s with
       | (s', Ok a) => k a s'
       | (s', Err e) => (s', Err e)
       | (s', Panic msg) => (s', Panic msg)
       end.

Notation "x <- c ;; k" := (bind c (λ x, k))
  (at level 20, c at level 99, k at level 200, only parsing).

Definition get {S : Type} : M S S := λ s, (s, Ok s).
Definition modify {S : Type} (f : S → S) : M S unit := λ s, (f s, Ok tt).

Definition try {S : Type} (c : M S unit) : M S (option error) :=
  λ s, match c s with
       | (s', Ok _) => (s', Ok None)
       | (s', Err e) => (s', Ok (Some e))
       | (s', Panic msg) => (s', Panic msg)
       end.

Definition defer {S A B : Type} (d : M S B) (c : M S A) : M S A :=
  λ s, let '(s1, r) := c s in ((d s1).1, r).

(** A call on the second component of a pair of states. *)
Definition env {X W A : Type} (c : M W A) : M (X * W) A :=
  λ '(x, w), let '(w', r) := c w in ((x, w'), r).

(** ** The wire data model: [agent/structs/sqldb.go] *)

Module structs.
(** [float64] timings are never computed by the code of this
    development; they are carried as an opaque number. *)
Definition float64 : Type := Z.

(** A scalar of a result row ([interface{}] in the source). *)
Inductive Value : Type :=
| VNull
| VInt (n : Z)
| VText (s : string).

Record SQLResult : Type := mkSQLResult {
  LastInsertID : Z;
  RowsAffected : Z;
  Result_Error : string;        (* Error string `json:"error,omitempty"` *)
  Result_Time : float64
}.

Record SQLRows : Type := mkSQLRows {
  Columns : list string;
  Types : list string;
  Values : list (list Value);
  Rows_Error : string;
  Rows_Time : float64
}.

Inductive ConsistencyLevel : Type := None_ | Weak | Strong.

Definition ConsistencyLevel_int (l : ConsistencyLevel) : Z :=
  match l with None_ => 0 | Weak => 1 | Strong => 2 end.

Record SQLQueryRequest : Type := mkSQLQueryRequest {
  Q_Queries : list string;
  Q_Timings : bool;
  Q_Atomic : bool;
  Q_Lvl : ConsistencyLevel
}.

Record SQLQueryResponse : Type := mkSQLQueryResponse {
  Rows : list SQLRows;
  Q_Time : float64;
  Q_Err : option error
}.

Record SQLExecuteRequest : Type := mkSQLExecuteRequest {
  E_Queries : list string;
  E_Timings : bool;
  E_Atomic : bool
}.

Record SQLExecuteResponse : Type := mkSQLExecuteResponse {
  Results : list SQLResult;
  E_Time : float64;
  E_Err : option error
}.

(** The message types of the two requests, declared with the other
    raft message types. *)
Inductive MessageType : Type := SQLExecuteRequestType | SQLQueryRequestType.
End structs.

(** ** The environment of the store: files and the embedded engine *)

Abbreviation bytes := (list Byte.byte).

(** [*os.File] *)
Record File : Type := mkFile { File_Name : string }.

(** [*log.Logger] *)
Record Logger : Type := mkLogger { prefix : string }.

Module sqlite.
(** [*sqlite.DB] and [*sqlite.Conn] are handles into the engine. *)
Record DB : Type := mkDB { db_handle : nat }.
Record Conn : Type := mkConn { conn_handle : nat; conn_db : DB }.

(** What the engine holds for one instance. *)
Record Instance : Type := mkInstance {
  inst_path : string;
  inst_dsn : string;
  inst_memory : bool;
  inst_data : bytes         (* the database image *)
}.
End sqlite.

(** The world outside the store.  [faults] is the script of the
    environment: each fallible call of the operating system or of the
    engine takes the next entry, [Some msg] makes the call fail with
    that message; with the script used up every call succeeds. *)
Record World : Type := mkWorld {
  files : gmap string bytes;
  instances : gmap nat sqlite.Instance;
  next_conn : nat;
  faults : list (option string);
  logged : list string;
  stats : option (gmap string Z)       (* var stats *expvar.Map *)
}.

Definition set_files (f : gmap string bytes → gmap string bytes) (w : World) : World :=
  mkWorld (f (files w)) (instances w) (next_conn w) (faults w) (logged w) (stats w).
Definition set_instances (f : gmap nat sqlite.Instance → gmap nat sqlite.Instance)
    (w : World) : World :=
  mkWorld (files w) (f (instances w)) (next_conn w) (faults w) (logged w) (stats w).
Definition set_next_conn (n : nat) (w : World) : World :=
  mkWorld (files w) (instances w) n (faults w) (logged w) (stats w).
Definition set_faults (fs : list (option string)) (w : World) : World :=
  mkWorld (files w) (instances w) (next_conn w) fs (logged w) (stats w).
Definition set_logged (l : list string) (w : World) : World :=
  mkWorld (files w) (instances w) (next_conn w) (faults w) l (stats w).
Definition set_stats (st : option (gmap string Z)) (w : World) : World :=
  mkWorld (files w) (instances w) (next_conn w) (faults w) (logged w) st.

Definition fault : M World unit :=
  λ w, match faults w with
       | [] => (w, Ok tt)
       | None :: fs => (set_faults fs w, Ok tt)
       | Some msg :: fs => (set_faults fs w, Err (EnvError msg))
       end.

(** *** The operating system *)

Definition os_Remove (name : string) : M World unit :=
  _ <- fault ;;
  λ w, match files w !! name with
       | None => (w, Err (ErrNotExist name))
       | Some _ => (set_files (delete name) w, Ok tt)
       end.

Definition os_IsNotExist (e : error) : bool :=
  match e with ErrNotExist _ => true | _ => false end.

(** [ioutil.TempFile] creates a file that did not exist (O_EXCL); the
    model takes a name that is not in the file system. *)
Definition temp_name (w : World) : string := fresh (dom (files w)).

Definition ioutil_TempFile (dir pattern : string) : M World File :=
  _ <- fault ;;
  λ w, let name := temp_name w in
       (set_files <[name := []]> w, Ok (mkFile name)).

(** A write to a file that was removed in the meantime goes to the
    unlinked file and shows nowhere. *)
Definition File_Write (f : File) (b : bytes) : M World nat :=
  _ <- fault ;;
  λ w, (set_files (alter (λ old, old ++ b) (File_Name f)) w, Ok (length b)).

Definition File_Close (f : File) : M World unit := fault.

Definition os_Open (name : string) : M World File :=
  _ <- fault ;;
  λ w, match files w !! name with
       | None => (w, Err (ErrNotExist name))
       | Some _ => (w, Ok (mkFile name))
       end.

(** [io.Copy(dst, src)] on a [*bytes.Buffer]: the new contents of the
    buffer and the error.  A copy that fails is taken to have copied
    nothing. *)
Definition io_Copy (dst : bytes) (src : File) : M World (bytes * option error) :=
  λ w, match fault w with
       | (w', Ok _) => (w', Ok (dst ++ default [] (files w' !! File_Name src), None))
       | (w', Err e) => (w', Ok (dst, Some e))
       | (w', Panic msg) => (w', Panic msg)
       end.

Definition filepath_Join (dir name : string) : string :=
  if decide (dir = "") then name else dir +:+ "/" +:+ name.

Definition Println (l : option Logger) (msg : string) : M World unit :=
  match l with
  | None => panic nil_deref
  | Some l => modify (λ w, set_logged (logged w ++ [prefix l +:+ msg]) w)
  end.

(** [expvar.Map.Add] *)
Definition stats_Add (key : string) (delta : Z) : M World unit :=
  λ w, match stats w with
       | None => (w, Panic nil_deref)
       | Some m => (set_stats (Some (<[key := (default 0 (m !! key) + delta)%Z]> m)) w, Ok tt)
       end.

(** *** The embedded engine adapter ([agent/consul/state/sqlite])

    [sqldb.go] imports the package; its source is not followed here
    and its operations are taken from section 4.1 of the
    specification.  A method called through a nil handle dereferences
    it and panics. *)

Definition conn_data (w : World) (c : sqlite.Conn) : bytes :=
  default [] (sqlite.inst_data <$> instances w !! sqlite.db_handle (sqlite.conn_db c)).

(** The engine stores a new image for the instance behind [c]; the
    image of a file-based instance is the contents of its file. *)
Definition store_data (c : sqlite.Conn) (d : bytes) (w : World) : World :=
  match instances w !! sqlite.db_handle (sqlite.conn_db c) with
  | None => w
  | Some i =>
      let i' := sqlite.mkInstance (sqlite.inst_path i) (sqlite.inst_dsn i)
                  (sqlite.inst_memory i) d in
      let w' := set_instances <[sqlite.db_handle (sqlite.conn_db c) := i']> w in
      if sqlite.inst_memory i then w' else set_files <[sqlite.inst_path i := d]> w'
  end.

(** Modelled from the spec: [sqlite.NewDB], the adapter's
    [open(path, connectionString, memoryOnly)]: a memory-only instance
    is transient and touches no file, any other instance lives in the
    file at [path], which the engine creates when it does not exist.
    The new instance gets a handle that no instance of the engine has. *)
Definition sqlite_NewDB (path dsn : string) (memory : bool) : M World sqlite.DB :=
  _ <- fault ;;
  λ w, let h := fresh (dom (instances w)) in
       let d := if memory then [] else default [] (files w !! path) in
       let w1 := set_instances <[h := sqlite.mkInstance path dsn memory d]> w in
       let w2 := if memory then w1 else set_files <[path := d]> w1 in
       (w2, Ok (sqlite.mkDB h)).

(** Modelled from the spec: [DB.Connect], the adapter's
    [connect(engineHandle)]. *)
Definition DB_Connect (db : sqlite.DB) : M World sqlite.Conn :=
  _ <- fault ;;
  λ w, (set_next_conn (S (next_conn w)) w, Ok (sqlite.mkConn (next_conn w) db)).

(** Modelled from the spec: [Conn.Close] releases a
    connection; the instance keeps its image. *)
Definition Conn_Close (c : sqlite.Conn) : M World unit := fault.

(** Modelled from the spec: [Conn.Load], the adapter's
    [load(targetConn, sourceConn)]: replaces the contents addressed by
    the target with the contents addressed by the source, atomically;
    a failed load replaces nothing. *)
Definition Conn_Load (target src : sqlite.Conn) : M World unit :=
  _ <- fault ;; modify (λ w, store_data target (conn_data w src) w).

(** Modelled from the spec: [Conn.Backup], the adapter's
    [backup(sourceConn, destConn)]: a byte-exact copy of the source's
    state into the destination's backing store. *)
Definition Conn_Backup (src dst : sqlite.Conn) : M World unit :=
  _ <- fault ;; modify (λ w, store_data dst (conn_data w src) w).

(** A method call through a handle that may be nil. *)
Definition through {S A : Type} (c : option sqlite.Conn) (k : sqlite.Conn → M S A) : M S A :=
  match c with
  | None => panic nil_deref
  | Some c => k c
  end.

(** ** The replicated store: [agent/consul/state/sqldb.go] *)

Import structs.

Definition sqliteFile : string := "db.sqlite".
Definition numRestores : string := "num_restores".

(** The two locks of the struct carry no data: [closedMu] is held for
    the whole of [Open] and of [Close], and [restoreMu] is the subject
    of the concurrent model further down. *)
Record SQLDB : Type := mkSQLDB {
  dbPath : string;                  (* Path to underlying SQLite file, if not in-memory. *)
  dsn : string;                     (* Any custom DSN *)
  memory : bool;                    (* Whether the database is in-memory only. *)
  db : option sqlite.DB;            (* The underlying SQLite database. *)
  dbConn : option sqlite.Conn;      (* Hidden connection to underlying SQLite database. *)
  closed : bool;                    (* Has the store been closed? *)
  logger : option Logger
}.

(** The assignments [s.db = ...], [s.dbConn = ...] and [s.closed = ...]. *)
Definition with_db (d : option sqlite.DB) (s : SQLDB) : SQLDB :=
  mkSQLDB (dbPath s) (dsn s) (memory s) d (dbConn s) (closed s) (logger s).
Definition with_dbConn (c : option sqlite.Conn) (s : SQLDB) : SQLDB :=
  mkSQLDB (dbPath s) (dsn s) (memory s) (db s) c (closed s) (logger s).
Definition with_closed (b : bool) (s : SQLDB) : SQLDB :=
  mkSQLDB (dbPath s) (dsn s) (memory s) (db s) (dbConn s) b (logger s).

Definition set_db (d : option sqlite.DB) : M (SQLDB * World) unit :=
  modify (λ '(s, w), (with_db d s, w)).
Definition set_dbConn (c : option sqlite.Conn) : M (SQLDB * World) unit :=
  modify (λ '(s, w), (with_dbConn c s, w)).
Definition set_closed (b : bool) : M (SQLDB * World) unit :=
  modify (λ '(s, w), (with_closed b s, w)).

(** The receiver [s] as the body reads it. *)
Definition self : M (SQLDB * World) SQLDB := λ st, (st, Ok st.1).

Section Store.
(** The SQL dialect is the engine's: what a batch of statements does
    to a database image is a parameter.  [sql_execute data queries
    atomic timings] gives the new image, the per-statement results
    and the error of the batch; [sql_query] reads only. *)
Variable sql_execute :
  bytes → list string → bool → bool → bytes * (list SQLResult * option error).
Variable sql_query :
  bytes → list string → bool → bool → list SQLRows * option error.

(** Modelled from the spec: [Conn.Execute] and [Conn.Query], the
    adapter's [execute] and [query] on a connection; they return the
    per-statement results next to the error of the batch. *)
Definition Conn_Execute (c : sqlite.Conn) (queries : list string) (tx xTime : bool)
    : M World (list SQLResult * option error) :=
  λ w, let '(d, r) := sql_execute (conn_data w c) queries tx xTime in
       (store_data c d w, Ok r).

Definition Conn_Query (c : sqlite.Conn) (queries : list string) (tx xTime : bool)
    : M World (list SQLRows * option error) :=
  λ w, (w, Ok (sql_query (conn_data w c) queries tx xTime)).

(** [Open]: the mutex [closedMu] is held for the whole body. *)
Definition Open : M (SQLDB * World) unit :=
  s <- self ;;
  if closed s then throw ErrStoreInvalidState else
  db <- (if negb (memory s) then
           err <- try (env (os_Remove (dbPath s))) ;;
           _ <- match err with
                | Some e => if negb (os_IsNotExist e) then throw e else ret tt
                | None => ret tt
                end ;;
           db <- env (sqlite_NewDB (dbPath s) (dsn s) false) ;;
           _ <- env (Println (logger s) ("SQLite database opened at " +:+ dbPath s)) ;;
           ret db
         else
           db <- env (sqlite_NewDB (dbPath s) (dsn s) true) ;;
           _ <- env (Println (logger s) "SQLite in-memory database opened") ;;
           ret db) ;;
  _ <- set_db (Some db) ;;
  conn <- env (DB_Connect db) ;;          (* s.db.Connect() *)
  _ <- set_dbConn (Some conn) ;;
  ret tt.

(** [NewSQLDB]: the struct literal sets [dbPath] and [logger]; every
    other field has its zero value. *)
Definition NewSQLDB (dir dsn : string) (memory : bool) (logger : option Logger)
    : M World SQLDB :=
  let logger := match logger with
                | None => Some (mkLogger "[store] ")
                | Some l => Some l
                end in
  let sqldb := {| dbPath := filepath_Join dir sqliteFile;
                  dsn := "";
                  memory := false;
                  db := None;
                  dbConn := None;
                  closed := false;
                  logger := logger |} in
  λ w, match Open (sqldb, w) with
       | ((s, w'), Ok _) => (w', Ok s)
       | ((_, w'), Err e) => (w', Err e)
       | ((_, w'), Panic msg) => (w', Panic msg)
       end.

(** [Close]: [closedMu] is held for the whole body; the deferred
    function sets [closed] on every path behind the first test. *)
Definition Close (wait : bool) : M (SQLDB * World) unit :=
  s <- self ;;
  if closed s then ret tt else
  defer (set_closed true)
    (_ <- through (dbConn s) (λ c, env (Conn_Close c)) ;;
     _ <- set_dbConn None ;;
     _ <- set_db None ;;
     ret tt).

(** [Execute] and [Query] hold [restoreMu] in shared mode, [Restore]
    holds it exclusively; the lock is the subject of the concurrent
    model below. *)
Definition Execute (s : SQLDB) (queries : list string) (atomic : bool)
    : M World SQLExecuteResponse :=
  p <- through (dbConn s) (λ c, Conn_Execute c queries atomic true) ;;
  ret {| Results := p.1; E_Time := 0%Z; E_Err := p.2 |}.

Definition Query (s : SQLDB) (queries : list string) (atomic : bool)
    : M World SQLQueryResponse :=
  p <- through (dbConn s) (λ c, Conn_Query c queries atomic true) ;;
  ret {| Rows := p.1; Q_Time := 0%Z; Q_Err := p.2 |}.

(** [Restore]: the deferred calls run last registered first, that is
    [conn.Close()], [f.Close()], [os.Remove(f.Name())]. *)
Definition Restore (s : SQLDB) (src : bytes) : M World unit :=
  f <- ioutil_TempFile "" "rqlilte-snap-" ;;
  defer (os_Remove (File_Name f))
  (defer (File_Close f)
  (_ <- File_Write f src ;;
   db <- sqlite_NewDB (File_Name f) "" false ;;
   conn <- DB_Connect db ;;
   defer (Conn_Close conn)
   (_ <- through (dbConn s) (λ c, Conn_Load c conn) ;;
    _ <- stats_Add numRestores 1 ;;
    ret tt))).

(** [Backup] takes no lock; its state is the destination buffer and
    the world.  [copy_to_buffer] is its last statement,
    [_, err = io.Copy(dst, of); return err]. *)
Definition copy_to_buffer (src : File) : M (bytes * World) unit :=
  λ '(dst, w), match io_Copy dst src w with
               | (w', Ok (dst', None)) => ((dst', w'), Ok tt)
               | (w', Ok (dst', Some e)) => ((dst', w'), Err e)
               | (w', Err e) => ((dst, w'), Err e)
               | (w', Panic msg) => ((dst, w'), Panic msg)
               end.

Definition Backup (s : SQLDB) : M (bytes * World) unit :=
  f <- env (ioutil_TempFile "" "rqlilte-snap-") ;;
  _ <- env (File_Close f) ;;
  _ <- try (env (os_Remove (File_Name f))) ;;
  db <- env (sqlite_NewDB (File_Name f) "" false) ;;
  conn <- env (DB_Connect db) ;;
  _ <- through (dbConn s) (λ c, env (Conn_Backup c conn)) ;;
  _ <- env (Conn_Close conn) ;;
  of_ <- env (os_Open (File_Name f)) ;;
  defer (env (File_Close of_))
    (copy_to_buffer of_).
End Store.

(** [Store.Execute] and [Store.Query] of the state store hand the call
    to the SQL store. *)
Definition Store_Execute
    (sql_execute : bytes → list string → bool → bool → bytes * (list SQLResult * option error))
    (sqldb : SQLDB) (queries : list string) (atomic : bool) : M World SQLExecuteResponse :=
  Execute sql_execute sqldb queries atomic.

Definition Store_Query
    (sql_query : bytes → list string → bool → bool → list SQLRows * option error)
    (sqldb : SQLDB) (queries : list string) (atomic : bool) : M World SQLQueryResponse :=
  Query sql_query sqldb queries atomic.

(** The stores a caller can hold: the result of [NewSQLDB], the zero
    value of the exported struct type, and whatever [Open] and [Close]
    make of them, in any environment.  [Execute], [Query], [Restore] and
    [Backup] do not write to the struct. *)
Definition zero_SQLDB : SQLDB :=
  {| dbPath := ""; dsn := ""; memory := false; db := None; dbConn := None;
     closed := false; logger := None |}.

Inductive reachable : SQLDB → Prop :=
| reach_New dir dsn memory logger w w' s :
    NewSQLDB dir dsn memory logger w = (w', Ok s) → reachable s
| reach_zero : reachable zero_SQLDB
| reach_Open s w s' w' r :
    reachable s → Open (s, w) = ((s', w'), r) → reachable s'
| reach_Close wait s w s' w' r :
    reachable s → Close wait (s, w) = ((s', w'), r) → reachable s'.

(** Further [Close] calls, one after the other. *)
Fixpoint Close_all (waits : list bool) (st : SQLDB * World)
    : (SQLDB * World) * list (result unit) :=
  match waits with
  | [] => (st, [])
  | wait :: waits =>
      let '(st1, r) := Close wait st in
      let '(st2, rs) := Close_all waits st1 in
      (st2, r :: rs)
  end.

Definition fully_open (s : SQLDB) : Prop := is_Some (db s) ∧ is_Some (dbConn s).
Definition fully_closed (s : SQLDB) : Prop := db s = None ∧ dbConn s = None.

(** The store's utility connection addresses an instance of the engine. *)
Definition connected (s : SQLDB) (w : World) : Prop :=
  ∃ c, dbConn s = Some c ∧
       is_Some (instances w !! sqlite.db_handle (sqlite.conn_db c)).

(** The database state that [Execute] and [Query] work on. *)
Definition live_data (s : SQLDB) (w : World) : option bytes :=
  c ← dbConn s; Some (conn_data w c).

(** What holds of every store a caller can hold. *)
Definition well_formed (s : SQLDB) : Prop :=
  fully_open s ∨ (fully_closed s ∧ (closed s = true ∨ logger s = None)).

(** Every instance of [w] is in [w'], as it was. *)
Definition keeps (w w' : World) : Prop :=
  ∀ h, is_Some (instances w !! h) → instances w' !! h = instances w !! h.

(** A call that keeps the instances however it ends, one that keeps
    them when it returns an error, and one that returns no error. *)
Definition frame {A} (c : M World A) : Prop :=
  ∀ w w' r, c w = (w', r) → keeps w w'.
Definition frame_err {A} (c : M World A) : Prop :=
  ∀ w w' e, c w = (w', Err e) → keeps w w'.
Definition no_err {A} (c : M World A) : Prop :=
  ∀ w w' e, c w ≠ (w', Err e).

(** ** The consensus-driven endpoint: [agent/consul/sqldb_endpoint.go] *)

Module Endpoint.

(** The [interface{}] that [raftApply] hands back: the value the state
    machine returned for the committed entry. *)
Inductive iface : Type :=
| IExecuteResponse (r : SQLExecuteResponse)     (* *structs.SQLExecuteResponse *)
| IQueryResponse (r : SQLQueryResponse)         (* *structs.SQLQueryResponse *)
| IError (e : error)
| IOther.

Inductive Args : Type :=
| ExecuteArgs (args : SQLExecuteRequest)
| QueryArgs (args : SQLQueryRequest).

(** [return err] for an [error] value that may be nil. *)
Definition return_error {S : Type} (err : option error) : M S unit :=
  match err with
  | None => ret tt
  | Some e => throw e
  end.

(** The same as the result of a call. *)
Definition as_result (err : option error) : result unit :=
  match err with
  | None => Ok tt
  | Some e => Err e
  end.

Section Endpoint.
(** [s.srv.raftApply] is a method of the server, whose source is not
    followed here: it is a parameter.  It returns [(interface{}, error)]
    and works on the server's state [Srv]. *)
Variable Srv : Type.
Variable raftApply : MessageType → Args → M Srv iface.

(** The state of a call is [*reply] and the server. *)
Definition execute (args : SQLExecuteRequest) : M (SQLExecuteResponse * Srv) unit :=
  f <- env (raftApply SQLExecuteRequestType (ExecuteArgs args)) ;;
  match f with
  | IExecuteResponse r =>
      _ <- modify (λ '(_, srv), (r, srv)) ;;
      return_error (E_Err r)
  | IError r => throw r
  | _ => panic "unsupported type"
  end.

Definition query (args : SQLQueryRequest) : M (SQLQueryResponse * Srv) unit :=
  f <- env (raftApply SQLQueryRequestType (QueryArgs args)) ;;
  match f with
  | IQueryResponse r =>
      _ <- modify (λ '(_, srv), (r, srv)) ;;
      return_error (Q_Err r)
  | IError r => throw r
  | _ => panic "unsupported type"
  end.

Definition SQL_Execute (args : SQLExecuteRequest) : M (SQLExecuteResponse * Srv) unit :=
  execute args.

Definition SQL_Query (args : SQLQueryRequest) : M (SQLQueryResponse * Srv) unit :=
  query args.
End Endpoint.

End Endpoint.

(** The draft of the endpoint that reads the raft future itself. *)
Module EndpointDraft.
Import Endpoint.

(** [raft.Future]: [Error()] and [Response()]. *)
Record Future : Type := mkFuture {
  Future_Error : option error;
  Future_Response : iface
}.

Section Endpoint.
Variable Srv : Type.
Variable raftApply : MessageType → Args → Srv → Srv * Future.

Definition future_error {S : Type} (f : Future) : M S unit :=
  match Future_Error f with
  | Some e => if decide (e = RaftErrNotLeader) then throw ErrNotLeader else throw e
  | None => ret tt
  end.

Definition execute (args : SQLExecuteRequest) : M (SQLExecuteResponse * Srv) unit :=
  f <- env (λ srv, let '(srv', f) := raftApply SQLExecuteRequestType (ExecuteArgs args) srv in
                   (srv', Ok f)) ;;
  _ <- future_error f ;;
  match Future_Response f with
  | IExecuteResponse r =>
      _ <- modify (λ '(_, srv), (r, srv)) ;;
      return_error (E_Err r)
  | IError r => throw r
  | _ => panic "unsupported type"
  end.

Definition query (args : SQLQueryRequest) : M (SQLQueryResponse * Srv) unit :=
  f <- env (λ srv, let '(srv', f) := raftApply SQLQueryRequestType (QueryArgs args) srv in
                   (srv', Ok f)) ;;
  _ <- future_error f ;;
  match Future_Response f with
  | IQueryResponse r =>
      _ <- modify (λ '(_, srv), (r, srv)) ;;
      return_error (Q_Err r)
  | IError r => throw r
  | _ => panic "unsupported type"
  end.
End Endpoint.

End EndpointDraft.

(** ** Concurrent calls on one store: the lock [restoreMu]

    [Execute] and [Query] run [s.restoreMu.RLock()], the engine call and
    the deferred [RUnlock()]; [Restore] runs [s.restoreMu.Lock()], its
    body and the deferred [Unlock()].  The calls of the threads
    interleave step by step.  The engine's [Load] is not one step here:
    it copies the snapshot into the live image piece by piece, and the
    image is torn until the copy is complete. *)

Module Concurrent.

(** Where a thread stands in its call. *)
Inductive pc : Type :=
| Idle
| ExecuteRLock (queries : list string) (atomic : bool)
| ExecuteCall (queries : list string) (atomic : bool)
| ExecuteRUnlock (resp : SQLExecuteResponse)
| QueryRLock (queries : list string) (atomic : bool)
| QueryCall (queries : list string) (atomic : bool)
| QueryRUnlock (resp : SQLQueryResponse)
| RestoreLock (src : bytes)
| RestoreBody (src : bytes)              (* TempFile, Write, NewDB, Connect *)
| RestoreLoad (src : bytes) (k : nat)    (* inside s.dbConn.Load, k bytes copied *)
| RestoreUnlock (err : option error).    (* the deferred calls, the last is Unlock *)

#[global] Instance pc_inhabited : Inhabited pc := populate Idle.



(** [sync.RWMutex], with the holders of the lock instead of their number. *)
Record RWMutex : Type := mkRWMutex {
  writer : option nat;
  readers : gset nat
}.

(** What an engine call of [Execute] or [Query] worked on: the image,
    and whether a [Load] was under way. *)
Record Observation : Type := mkObservation {
  seen : bytes;
  torn : bool
}.

(** The calls that changed the image, each as a whole: the batch of an
    [Execute], and the snapshot of a [Restore] that returned nil. *)
Inductive Event : Type :=
| EvExecute (queries : list string) (atomic : bool)
| EvRestore (src : bytes).

(** [observed] and [history] are not data of the program: they record
    what the engine calls saw, and which calls took effect, in order. *)
Record State : Type := mkState {
  restoreMu : RWMutex;
  live : bytes;                   (* the image behind s.dbConn *)
  loading : option bytes;         (* the image a Load in progress started from *)
  threads : gmap nat pc;
  observed : list Observation;
  history : list Event
}.

Definition pc_of (st : State) (i : nat) : pc := default Idle (threads st !! i).

Definition init (d : bytes) : State :=
  mkState (mkRWMutex None ∅) d None ∅ [] [].

Definition observe (st : State) : Observation :=
  mkObservation (live st) (bool_decide (is_Some (loading st))).

Section Steps.
Variable sql_execute :
  bytes → list string → bool → bool → bytes * (list SQLResult * option error).
Variable sql_query :
  bytes → list string → bool → bool → list SQLRows * option error.


Inductive step : State → State → Prop :=
| step_call_Execute i q a mu d ld ths obs h :
    default Idle (ths !! i) = Idle →
    step (mkState mu d ld ths obs h) (mkState mu d ld (<[i := ExecuteRLock q a]> ths) obs h)
| step_call_Query i q a mu d ld ths obs h :
    default Idle (ths !! i) = Idle →
    step (mkState mu d ld ths obs h) (mkState mu d ld (<[i := QueryRLock q a]> ths) obs h)
| step_call_Restore i src mu d ld ths obs h :
    default Idle (ths !! i) = Idle →
    step (mkState mu d ld ths obs h) (mkState mu d ld (<[i := RestoreLock src]> ths) obs h)
| step_Execute_RLock i q a rs d ld ths obs h :
    ths !! i = Some (ExecuteRLock q a) →
    step (mkState (mkRWMutex None rs) d ld ths obs h)
         (mkState (mkRWMutex None ({[i]} ∪ rs)) d ld (<[i := ExecuteCall q a]> ths) obs h)
| step_Execute_call i q a mu d ld ths obs h :
    ths !! i = Some (ExecuteCall q a) →
    let r := sql_execute d q a true in
    step (mkState mu d ld ths obs h)
         (mkState mu r.1 ld
            (<[i := ExecuteRUnlock (mkSQLExecuteResponse r.2.1 0%Z r.2.2)]> ths)
            (obs ++ [observe (mkState mu d ld ths obs h)])
            (h ++ [EvExecute q a]))
| step_Execute_RUnlock i resp wr rs d ld ths obs h :
    ths !! i = Some (ExecuteRUnlock resp) →
    step (mkState (mkRWMutex wr rs) d ld ths obs h)
         (mkState (mkRWMutex wr (rs ∖ {[i]})) d ld (<[i := Idle]> ths) obs h)
| step_Query_RLock i q a rs d ld ths obs h :
    ths !! i = Some (QueryRLock q a) →
    step (mkState (mkRWMutex None rs) d ld ths obs h)
         (mkState (mkRWMutex None ({[i]} ∪ rs)) d ld (<[i := QueryCall q a]> ths) obs h)
| step_Query_call i q a mu d ld ths obs h :
    ths !! i = Some (QueryCall q a) →
    let r := sql_query d q a true in
    step (mkState mu d ld ths obs h)
         (mkState mu d ld
            (<[i := QueryRUnlock (mkSQLQueryResponse r.1 0%Z r.2)]> ths)
            (obs ++ [observe (mkState mu d ld ths obs h)]) h)
| step_Query_RUnlock i resp wr rs d ld ths obs h :
    ths !! i = Some (QueryRUnlock resp) →
    step (mkState (mkRWMutex wr rs) d ld ths obs h)
         (mkState (mkRWMutex wr (rs ∖ {[i]})) d ld (<[i := Idle]> ths) obs h)
| step_Restore_Lock i src d ld ths obs h :
    ths !! i = Some (RestoreLock src) →
    step (mkState (mkRWMutex None ∅) d ld ths obs h)
         (mkState (mkRWMutex (Some i) ∅) d ld (<[i := RestoreBody src]> ths) obs h)
| step_Restore_body_fails i src e mu d ld ths obs h :
    ths !! i = Some (RestoreBody src) →
    step (mkState mu d ld ths obs h)
         (mkState mu d ld (<[i := RestoreUnlock (Some e)]> ths) obs h)
| step_Restore_Load_begins i src mu d ths obs h :
    ths !! i = Some (RestoreBody src) →
    step (mkState mu d None ths obs h)
         (mkState mu d (Some d) (<[i := RestoreLoad src 0]> ths) obs h)
| step_Restore_Load_copies i src k old mu d ths obs h :
    ths !! i = Some (RestoreLoad src k) →
    (k < length src)%nat →
    step (mkState mu d (Some old) ths obs h)
         (mkState mu (take (S k) src ++ drop (S k) old) (Some old)
            (<[i := RestoreLoad src (S k)]> ths) obs h)
| step_Restore_Load_done i src k old mu d ths obs h :
    ths !! i = Some (RestoreLoad src k) →
    (length src ≤ k)%nat →
    step (mkState mu d (Some old) ths obs h)
         (mkState mu src None (<[i := RestoreUnlock None]> ths) obs
            (h ++ [EvRestore src]))
| step_Restore_Load_fails i src k e old mu d ths obs h :
    ths !! i = Some (RestoreLoad src k) →
    step (mkState mu d (Some old) ths obs h)
         (mkState mu old None (<[i := RestoreUnlock (Some e)]> ths) obs h)
| step_Restore_Unlock i err wr rs d ld ths obs h :
    ths !! i = Some (RestoreUnlock err) →
    step (mkState (mkRWMutex wr rs) d ld ths obs h)
         (mkState (mkRWMutex None rs) d ld (<[i := Idle]> ths) obs h).

Inductive reachable (d : bytes) : State → Prop :=
| reachable_init : reachable d (init d)
| reachable_step st st' : reachable d st → step st st' → reachable d st'.

End Steps.




End Concurrent.

(** Modelled from the spec: the consensus-apply primitive of sections
    4.3 and 6 ([Server.raftApply] and the state machine behind it,
    whose sources are not followed here).  A node that is not the leader rejects
    the entry; an entry that does not reach a quorum fails; a committed
    entry is applied to the local store and the store's return value is
    handed back. *)
Record Server : Type := mkServer {
  leader : bool;
  quorum : option error;        (* why the commit fails, if it does *)
  sqldb : SQLDB;
  world : World
}.

Definition raftApply_model
    (sql_execute : bytes → list string → bool → bool → bytes * (list SQLResult * option error))
    (sql_query : bytes → list string → bool → bool → list SQLRows * option error)
    (t : MessageType) (args : Endpoint.Args) : M Server Endpoint.iface :=
  λ srv,
    if negb (leader srv) then (srv, Err RaftErrNotLeader) else
    match quorum srv with
    | Some e => (srv, Err e)
    | None =>
        match args with
        | Endpoint.ExecuteArgs a =>
            let '(w', r) := Store_Execute sql_execute (sqldb srv)
                              (E_Queries a) (E_Atomic a) (world srv) in
            (mkServer (leader srv) (quorum srv) (sqldb srv) w',
             match r with
             | Ok resp => Ok (Endpoint.IExecuteResponse resp)
             | Err e => Ok (Endpoint.IError e)
             | Panic msg => Panic msg
             end)
        | Endpoint.QueryArgs a =>
            let '(w', r) := Store_Query sql_query (sqldb srv)
                              (Q_Queries a) (Q_Atomic a) (world srv) in
            (mkServer (leader srv) (quorum srv) (sqldb srv) w',
             match r with
             | Ok resp => Ok (Endpoint.IQueryResponse resp)
             | Err e => Ok (Endpoint.IError e)
             | Panic msg => Panic msg
             end)
        end
    end.

(** ** Concrete inputs *)

Module Examples.

(** Two peers that announce the same address, and a third one. *)
Definition peerA : metadata.Server :=
  {| metadata.ID := "node-a"; metadata.Addr := "10.0.0.1:8300"; metadata.Name := "a" |}.
Definition peerB : metadata.Server :=
  {| metadata.ID := "node-b"; metadata.Addr := "10.0.0.1:8300"; metadata.Name := "b" |}.
Definition peerC : metadata.Server :=
  {| metadata.ID := "node-c"; metadata.Addr := "10.0.0.3:8300"; metadata.Name := "c" |}.

(** A toy engine: a statement is stored as its length; the statement
    ["BAD"] fails and reports so in its result; a batch in a transaction
    cannot begin when the image is longer than two bytes. *)
Definition toy_result (q : string) : SQLResult :=
  if decide (q = "BAD") then mkSQLResult 0%Z 0%Z "near BAD: syntax error" 0%Z
  else mkSQLResult 1%Z 1%Z "" 0%Z.

Definition toy_execute (d : bytes) (queries : list string) (tx xTime : bool)
    : bytes * (list SQLResult * option error) :=
  if tx && bool_decide (2 < length d)%nat
  then (d, ([], Some (EnvError "cannot start a transaction")))
  else (d ++ ((λ _, Byte.x01) <$> filter (λ q, q ≠ "BAD") queries),
        (toy_result <$> queries, None)).

Definition toy_query (d : bytes) (queries : list string) (tx xTime : bool)
    : list SQLRows * option error :=
  ((λ _, mkSQLRows ["n"] ["integer"] [[VInt (Z.of_nat (length d))]] "" 0%Z) <$> queries, None).

(** A world with an old database file and no faults. *)
Definition world0 : World :=
  mkWorld {[ "/data/db.sqlite" := [Byte.x2a; Byte.x2a] ]} ∅ 0 [] [] (Some ∅).

(** The store that [NewSQLDB] opens in [world0], and the world after. *)
Definition opened : World * result SQLDB :=
  Eval vm_compute in NewSQLDB "/data" "" false None world0.

Definition store1 : SQLDB :=
  match opened.2 with Ok s => s | _ => zero_SQLDB end.
Definition world1 : World := opened.1.

(** The same store after three statements, with an image of three bytes. *)
Definition world2 : World :=
  (Execute toy_execute store1 ["CREATE"; "INSERT"; "INSERT"] false world1).1.

(** A leader whose store holds the image of three bytes, and requests
    to it. *)
Definition leader2 : Server := mkServer true None store1 world2.

(** A node that is not the leader, and a leader that cannot commit. *)
Definition follower2 : Server := mkServer false None store1 world2.
Definition lonely2 : Server := mkServer true (Some (EnvError "no quorum")) store1 world2.

Definition raft2 : MessageType → Endpoint.Args → M Server Endpoint.iface :=
  raftApply_model toy_execute toy_query.

Definition atomic_insert : SQLExecuteRequest :=
  mkSQLExecuteRequest ["INSERT"] false true.
Definition batch_with_bad : SQLExecuteRequest :=
  mkSQLExecuteRequest ["INSERT"; "BAD"] false false.
Definition count_rows : SQLQueryRequest :=
  mkSQLQueryRequest ["SELECT"] false false Weak.

Definition no_reply : SQLExecuteResponse := mkSQLExecuteResponse [] 0%Z None.
Definition no_rows : SQLQueryResponse := mkSQLQueryResponse [] 0%Z None.

(** The world after the store was opened, with a script of faults. *)
Definition world1_faults (fs : list (option string)) : World :=
  set_faults fs world1.

(** [store1] after a [Close] that worked. *)
Definition store1_closed : SQLDB :=
  (Close true (store1, world1)).1.1.

(** A state of the concurrent system: thread 0 has restored the
    snapshot [conc_src], of two bytes, over the image [conc_old], of
    three; thread 1 has asked for a query before that and has made its
    engine call after it. *)
Definition conc_old : bytes := [Byte.x2a; Byte.x2a; Byte.x2a].
Definition conc_src : bytes := [Byte.x07; Byte.x08].


End Examples.

(** ** Notions used by the further properties *)

(** A sequence of life-cycle calls on one store. *)
Inductive Call : Type :=
| CallOpen
| CallClose (wait : bool).

Definition run_call (c : Call) : M (SQLDB * World) unit :=
  match c with
  | CallOpen => Open
  | CallClose wait => Close wait
  end.

Fixpoint run_calls (calls : list Call) (st : SQLDB * World)
    : (SQLDB * World) * list (result unit) :=
  match calls with
  | [] => (st, [])
  | c :: calls =>
      let '(st1, r) := run_call c st in
      let '(st2, rs) := run_calls calls st1 in
      (st2, r :: rs)
  end.

(** What a closed store answers to a call. *)
Definition closed_answer (c : Call) : result unit :=
  match c with
  | CallOpen => Err ErrStoreInvalidState
  | CallClose _ => Ok tt
  end.

(** A call that keeps a property of its state, however it ends. *)
Definition preserves {S A : Type} (P : S → Prop) (c : M S A) : Prop :=
  ∀ s s' r, c s = (s', r) → P s → P s'.

(** The environment's script is used up: no call fails from here on. *)
Definition calm (w : World) : Prop := faults w = [].

(** The fields that [NewSQLDB] sets for good. *)
Definition same_configuration (s s' : SQLDB) : Prop :=
  dbPath s' = dbPath s ∧ dsn s' = dsn s ∧ memory s' = memory s ∧ logger s' = logger s.



(** The [raftApply] over which the endpoint is its draft: it waits for
    the future and returns its response, or its error with raft's
    not-leader error replaced by the package's. *)
Definition await {Srv : Type}
    (raftApply : MessageType → Endpoint.Args → Srv → Srv * EndpointDraft.Future)
    (t : MessageType) (args : Endpoint.Args) : M Srv Endpoint.iface :=
  λ srv, let '(srv', f) := raftApply t args srv in
         (srv', match EndpointDraft.Future_Error f with
                | Some e => Err (if decide (e = RaftErrNotLeader) then ErrNotLeader else e)
                | None => Ok (EndpointDraft.Future_Response f)
                end).


(** * Properties *)

(** ** The peer directory *)

Section PeerDirectory.
Import metadata ServerLookup Examples.

Lemma both_found_AddServer sl p : both_found (AddServer sl p) p.
Proof.
  unfold both_found, ServerAddr, Server; simpl.
  by rewrite !lookup_insert_eq.
Qed.

Lemma both_absent_RemoveServer sl p : both_absent (RemoveServer sl p) p.
Proof.
  unfold both_absent, ServerAddr, Server; simpl.
  by rewrite !lookup_delete_eq.
Qed.

Lemma lookups_unrelated sl p op :
  unrelated p op →
  ServerAddr (apply_op sl op) (ID p) = ServerAddr sl (ID p) ∧
  Server (apply_op sl op) (Addr p) = Server sl (Addr p).
Proof.
  intros [Hid Haddr].
  destruct op as [q|q]; unfold ServerAddr, Server; simpl in *.
  - by rewrite !lookup_insert_ne.
  - by rewrite !lookup_delete_ne.
Qed.

Lemma lookups_run_unrelated ops : ∀ sl p,
  Forall (unrelated p) ops →
  ServerAddr (run ops sl) (ID p) = ServerAddr sl (ID p) ∧
  Server (run ops sl) (Addr p) = Server sl (Addr p).
Proof.
  induction ops as [|op ops IH]; intros sl p Hall; [done|].
  apply Forall_cons in Hall as [Hop Hall].
  destruct (IH (apply_op sl op) p Hall) as [H1 H2].
  destruct (lookups_unrelated sl p op Hop) as [H3 H4].
  unfold run in *; simpl. by rewrite H1, H2.
Qed.

(** C9, as stated, fails: after [AddServer peerA; AddServer peerB] the
    peer [peerA] is added and not removed, yet the lookup by its
    address answers [peerB]. *)
Lemma directory_clash_counterexample :
  added_not_removed peerA [OpAdd peerA; OpAdd peerB] ∧
  Server (run [OpAdd peerA; OpAdd peerB] NewServerLookup) (Addr peerA) = Some peerB ∧
  ¬ both_found (run [OpAdd peerA; OpAdd peerB] NewServerLookup) peerA.
Proof.
  split; [|split].
  - exists [], [OpAdd peerB]. split; [done|].
    intros Hin. apply list_elem_of_singleton in Hin. discriminate.
  - by vm_compute.
  - intros [_ Hsrv]. vm_compute in Hsrv. discriminate.
Qed.

(** C9, amended: a peer that was added, and after which no update
    concerned a peer with the same id or the same address, is found by
    both lookups, which agree: [ServerAddr] of its id is its address
    with a nil error, and [Server] of its address is that peer.  After
    [RemoveServer] of that peer both lookups report absence (the
    not-found error, the nil pointer), whatever the directory held and
    whatever was added or removed before: no condition on the history
    is needed for that half. *)
Theorem directory_lookups_consistent sl p ops :
  (Forall (unrelated p) ops → both_found (run ops (AddServer sl p)) p) ∧
  both_absent (RemoveServer (run ops (AddServer sl p)) p) p ∧
  (∀ sl', both_absent (RemoveServer sl' p) p).
Proof.
  split_and!.
  - intros Hops.
    destruct (lookups_run_unrelated ops (AddServer sl p) p Hops) as [H1 H2].
    unfold both_found. rewrite H1, H2. apply both_found_AddServer.
  - apply both_absent_RemoveServer.
  - intros sl'. apply both_absent_RemoveServer.
Qed.

(** The witness has another peer come and go after [peerA] was added;
    the second half is read at the history of the clash above, where
    [peerB] took over the address of [peerA]. *)
Lemma directory_lookups_consistent_witness :
  both_found (run [OpAdd peerC; OpRemove peerC] (AddServer NewServerLookup peerA)) peerA ∧
  both_absent (RemoveServer (run [OpAdd peerB] (AddServer NewServerLookup peerA)) peerA)
    peerA.
Proof.
  split.
  - apply (directory_lookups_consistent NewServerLookup peerA
             [OpAdd peerC; OpRemove peerC]).
    repeat constructor; simpl; discriminate.
  - apply (directory_lookups_consistent NewServerLookup peerA [OpAdd peerB]).
Defined.

End PeerDirectory.

(** ** The life cycle of the store: [Open] and [Close] *)

Lemma fault_cases w :
  (∃ w', fault w = (w', Ok tt)) ∨ (∃ w' msg, fault w = (w', Err (EnvError msg))).
Proof.
  unfold fault. destruct (faults w) as [|[msg|] fs]; eauto.
Qed.

Lemma Open_closed s w :
  closed s = true → Open (s, w) = ((s, w), Err ErrStoreInvalidState).
Proof. intros H. unfold Open, bind, self; simpl. by rewrite H. Qed.

Lemma Close_closed wait s w :
  closed s = true → Close wait (s, w) = ((s, w), Ok tt).
Proof. intros H. unfold Close, bind, self; simpl. by rewrite H. Qed.

(** Unfolds the body of a method down to the environment's script. *)
Ltac run_body :=
  cbv beta iota zeta delta
    [Open Close defer through bind self try env os_Remove sqlite_NewDB
     DB_Connect Conn_Close Println set_db set_dbConn set_closed modify ret
     throw panic fault fst snd]; simpl.

(** Every way [Open] ends on a store that is not closed. *)
Lemma Open_cases s w s' w' r :
  closed s = false →
  Open (s, w) = ((s', w'), r) →
  (r = Ok tt ∧ ∃ d c, s' = with_dbConn (Some c) (with_db (Some d) s)) ∨
  (∃ e, r = Err e ∧ e ≠ ErrStoreInvalidState ∧
        (s' = s ∨ ∃ d, s' = with_db (Some d) s ∧ is_Some (logger s))) ∨
  (∃ m, r = Panic m ∧ s' = s ∧ logger s = None).
Proof.
  intros Hc. run_body. rewrite Hc. intros H.
  repeat (case_match; simplify_eq/=); eauto 12.
Qed.

(** Every way [Close] ends on a store that is not closed. *)
Lemma Close_cases wait s w s' w' r :
  closed s = false →
  Close wait (s, w) = ((s', w'), r) →
  (r = Ok tt ∧ is_Some (dbConn s) ∧
     s' = with_closed true (with_db None (with_dbConn None s))) ∨
  (∃ e, r = Err e ∧ is_Some (dbConn s) ∧ s' = with_closed true s) ∨
  (∃ m, r = Panic m ∧ dbConn s = None ∧ s' = with_closed true s).
Proof.
  intros Hc. run_body. rewrite Hc. intros H.
  repeat (case_match; simplify_eq/=); eauto 10.
Qed.

Lemma Close_sets_closed wait s w s' w' r :
  Close wait (s, w) = ((s', w'), r) → closed s' = true.
Proof.
  intros H. destruct (closed s) eqn:Hc.
  - rewrite Close_closed in H by done. by simplify_eq.
  - apply Close_cases in H as [(_ & _ & ->)|[(e & _ & _ & ->)|(m & _ & _ & ->)]]; done.
Qed.

Lemma NewSQLDB_well_formed dir dsn memory logger w w' s :
  NewSQLDB dir dsn memory logger w = (w', Ok s) → fully_open s ∧ closed s = false.
Proof.
  unfold NewSQLDB. intros H.
  destruct (Open _) as [[s1 w1] r] eqn:HO.
  destruct r; simplify_eq.
  apply Open_cases in HO as [(_ & d & c & ->)|[(e & ? & _)|(m & ? & _)]];
    [|done..].
  split; [|done]. split; simpl; eauto.
Qed.

Lemma Open_well_formed s w s' w' r :
  well_formed s → Open (s, w) = ((s', w'), r) → well_formed s'.
Proof.
  intros Hwf H. destruct (closed s) eqn:Hc.
  - rewrite Open_closed in H by done. by simplify_eq.
  - apply Open_cases in H
      as [(_ & d & c & ->)|[(e & _ & _ & [->|(d & -> & Hlog)])|(m & _ & -> & _)]];
      try done.
    + left. split; simpl; eauto.
    + destruct Hwf as [[_ Hconn]|[_ [Hcl|Hnil]]].
      * left. split; simpl; eauto.
      * congruence.
      * rewrite Hnil in Hlog. by destruct Hlog.
Qed.

Lemma Close_well_formed wait s w s' w' r :
  well_formed s → Close wait (s, w) = ((s', w'), r) → well_formed s'.
Proof.
  intros Hwf H. destruct (closed s) eqn:Hc.
  - rewrite Close_closed in H by done. by simplify_eq.
  - apply Close_cases in H as [(_ & _ & ->)|[(e & _ & Hconn & ->)|(m & _ & Hnil & ->)]];
      try done.
    + right. repeat split; simpl; eauto.
    + destruct Hwf as [[Hdb _]|[[_ Hnil] _]].
      * left. by split.
      * rewrite Hnil in Hconn. by destruct Hconn.
    + destruct Hwf as [[_ Hconn]|[[Hdb _] _]].
      * rewrite Hnil in Hconn. by destruct Hconn.
      * right. repeat split; simpl; eauto.
Qed.

Lemma reachable_well_formed s : reachable s → well_formed s.
Proof.
  induction 1 as [dir dsn memory logger w w' s HN| |s w s' w' r _ IH HO
                 |wait s w s' w' r _ IH HC].
  - left. by apply NewSQLDB_well_formed in HN as [? _].
  - right. repeat split; simpl; eauto.
  - by eapply Open_well_formed.
  - by eapply Close_well_formed.
Qed.

Lemma well_formed_handles s : well_formed s → fully_open s ∨ fully_closed s.
Proof. intros [?|[? _]]; eauto. Qed.

Lemma reachable_store1 : reachable Examples.store1.
Proof.
  apply (reach_New "/data" "" false None Examples.world0 Examples.world1).
  by vm_compute.
Qed.

(** C6: on every store a caller can hold (the result of [NewSQLDB], the
    zero value of the struct, and whatever [Open] and [Close] make of
    them), and in every environment, a call of [Open] or of [Close]
    ends, whether with nil, with an error or with a panic, with the
    engine handle and the connection handle both set or both nil. *)
Theorem held_store_handles_paired s w wait :
  reachable s →
  (fully_open (Open (s, w)).1.1 ∨ fully_closed (Open (s, w)).1.1) ∧
  (fully_open (Close wait (s, w)).1.1 ∨ fully_closed (Close wait (s, w)).1.1).
Proof.
  intros Hs. apply reachable_well_formed in Hs. split.
  - destruct (Open (s, w)) as [[s' w'] r] eqn:HO.
    apply well_formed_handles. by eapply Open_well_formed.
  - destruct (Close wait (s, w)) as [[s' w'] r] eqn:HC.
    apply well_formed_handles. by eapply Close_well_formed.
Qed.

(** The witness is the open store of [NewSQLDB] in an environment where
    the next [Connect] fails, and where closing the connection fails:
    [Open] returns the error of [Connect], [Close] the error of the
    connection, and both leave the two handles set. *)
Lemma held_store_handles_paired_witness :
  let w := Examples.world1_faults [None; None; Some "no connection"] in
  let w' := Examples.world1_faults [Some "busy"] in
  (Open (Examples.store1, w)).2 = Err (EnvError "no connection") ∧
  (Close true (Examples.store1, w')).2 = Err (EnvError "busy") ∧
  (fully_open (Open (Examples.store1, w)).1.1 ∨
   fully_closed (Open (Examples.store1, w)).1.1) ∧
  (fully_open (Close true (Examples.store1, w')).1.1 ∨
   fully_closed (Close true (Examples.store1, w')).1.1).
Proof.
  intros w w'. split; [by vm_compute|]. split; [by vm_compute|].
  split.
  - apply (held_store_handles_paired Examples.store1 w true).
    apply (reach_New "/data" "" false None Examples.world0 Examples.world1).
    vm_compute. reflexivity.
  - apply (held_store_handles_paired Examples.store1 w' true).
    apply (reach_New "/data" "" false None Examples.world0 Examples.world1).
    vm_compute. reflexivity.
Defined.

(** Inside [NewSQLDB]: [Open] assigns [s.db] before it connects and
    returns the error of [Connect] without taking the assignment back.
    On the struct that [NewSQLDB] builds, with [NewDB] working and
    [Connect] failing, [Open] ends with the engine handle set and the
    connection handle nil; [NewSQLDB] then returns nil and that error,
    so no caller holds that struct.  On a store that is open, the same
    path leaves the handle of the new instance next to the connection
    of the old one: both handles are set. *)
Lemma Open_connect_failure_leaves_db_set :
  let s0 := mkSQLDB "/data/db.sqlite" "" false None None false
              (Some (mkLogger "[store] ")) in
  let w0 := set_faults [None; None; Some "no connection"] Examples.world0 in
  let r := Open (s0, w0) in
  r.2 = Err (EnvError "no connection") ∧
  is_Some (db r.1.1) ∧ dbConn r.1.1 = None ∧
  ¬ (fully_open r.1.1 ∨ fully_closed r.1.1) ∧
  (NewSQLDB "/data" "" false None w0).2 = Err (EnvError "no connection") ∧
  let r1 := Open (Examples.store1,
                  Examples.world1_faults [None; None; Some "no connection"]) in
  r1.2 = Err (EnvError "no connection") ∧
  db r1.1.1 ≠ db Examples.store1 ∧ dbConn r1.1.1 = dbConn Examples.store1 ∧
  fully_open r1.1.1.
Proof.
  vm_compute. split_and!; eauto; try discriminate.
  intros [[_ [c Hc]]|[Hd _]]; discriminate.
Qed.

Lemma Open_not_closed_not_InvalidState s w :
  closed s = false → (Open (s, w)).2 ≠ Err ErrStoreInvalidState.
Proof.
  intros Hc. destruct (Open (s, w)) as [[s' w'] r] eqn:HO.
  apply Open_cases in HO as [(-> & _)|[(e & -> & He & _)|(m & -> & _)]];
    simpl; congruence.
Qed.

(** C4, as stated, fails: [store1] is open (both handles set, not
    closed), and [Open] on it returns nil, with a new engine instance
    and a new connection, instead of the invalid-state error. *)
Lemma Open_on_open_store_counterexample :
  fully_open Examples.store1 ∧ closed Examples.store1 = false ∧
  (Open (Examples.store1, Examples.world1)).2 = Ok tt ∧
  db (Open (Examples.store1, Examples.world1)).1.1 ≠ db Examples.store1.
Proof. vm_compute. repeat split; eauto; discriminate. Qed.

(** C4, amended: [Open] fails with the invalid-state error exactly when
    the store has been closed; in particular [Open] after a [Close]
    call, however that call ended, returns the invalid-state error and
    leaves the store as it was, closed.  A store that is open and not
    closed is not rejected. *)
Theorem Open_after_Close_InvalidState wait s w0 s1 w1 r w :
  Close wait (s, w0) = ((s1, w1), r) →
  Open (s1, w) = ((s1, w), Err ErrStoreInvalidState) ∧
  closed s1 = true ∧
  (∀ s' w', (Open (s', w')).2 = Err ErrStoreInvalidState ↔ closed s' = true).
Proof.
  intros HC. apply Close_sets_closed in HC.
  split; [by apply Open_closed|]. split; [done|].
  intros s' w'. split.
  - intros HO. destruct (closed s') eqn:Hc; [done|].
    by apply Open_not_closed_not_InvalidState with (w := w') in Hc.
  - intros Hc. by rewrite Open_closed.
Qed.

Lemma Open_after_Close_InvalidState_witness :
  Open (Examples.store1_closed, Examples.world1)
    = ((Examples.store1_closed, Examples.world1), Err ErrStoreInvalidState) ∧
  closed Examples.store1_closed = true ∧
  (∀ s' w', (Open (s', w')).2 = Err ErrStoreInvalidState ↔ closed s' = true).
Proof.
  apply (Open_after_Close_InvalidState true Examples.store1 Examples.world1
           Examples.store1_closed (Close true (Examples.store1, Examples.world1)).1.2
           (Ok tt) Examples.world1).
  vm_compute. reflexivity.
Defined.

(** C5: after a [Close] that returned nil, every further [Close], with
    any [wait] and in any environment, returns nil and changes neither
    the store nor the world; the store is closed. *)
Theorem Close_idempotent wait s w s1 w1 :
  Close wait (s, w) = ((s1, w1), Ok tt) →
  closed s1 = true ∧
  ∀ waits w2, Close_all waits (s1, w2) = ((s1, w2), (λ _, Ok tt) <$> waits).
Proof.
  intros HC. apply Close_sets_closed in HC. split; [done|].
  intros waits w2. induction waits as [|wt waits IH]; [done|].
  simpl. rewrite Close_closed by done. by rewrite IH.
Qed.

Lemma Close_idempotent_witness :
  closed Examples.store1_closed = true ∧
  ∀ waits w2, Close_all waits (Examples.store1_closed, w2)
              = ((Examples.store1_closed, w2), (λ _, Ok tt) <$> waits).
Proof.
  apply (Close_idempotent true Examples.store1 Examples.world1
           Examples.store1_closed (Close true (Examples.store1, Examples.world1)).1.2).
  vm_compute. reflexivity.
Defined.

(** C10: when [Close] returns an error (closing the utility connection
    failed), the store is marked closed all the same and both handles
    are left as they were, set; every later [Close] returns nil and
    every later [Open] the invalid-state error, neither changing the
    store. *)
Theorem Close_failure_is_terminal wait s w s1 w1 e :
  reachable s →
  Close wait (s, w) = ((s1, w1), Err e) →
  closed s1 = true ∧
  db s1 = db s ∧ dbConn s1 = dbConn s ∧ fully_open s1 ∧
  (∀ wait' w2, Close wait' (s1, w2) = ((s1, w2), Ok tt)) ∧
  (∀ w2, Open (s1, w2) = ((s1, w2), Err ErrStoreInvalidState)).
Proof.
  intros Hs HC.
  assert (closed s1 = true) as Hcl by by eapply Close_sets_closed.
  assert (closed s = false) as Hc.
  { destruct (closed s) eqn:Hc; [|done].
    rewrite Close_closed in HC by done. by simplify_eq. }
  apply reachable_well_formed in Hs.
  apply Close_cases in HC as [(? & _)|[(e' & _ & Hconn & ->)|(m & ? & _)]];
    [done| |done..].
  split; [done|]. split; [done|]. split; [done|]. split.
  - destruct Hs as [[Hdb _]|[[_ Hnil] _]].
    + by split.
    + rewrite Hnil in Hconn. by destruct Hconn.
  - split; intros; [by apply Close_closed|by apply Open_closed].
Qed.

Lemma Close_failure_is_terminal_witness :
  let s1 := (Close true (Examples.store1, Examples.world1_faults [Some "busy"])).1.1 in
  closed s1 = true ∧
  db s1 = db Examples.store1 ∧ dbConn s1 = dbConn Examples.store1 ∧ fully_open s1 ∧
  (∀ wait' w2, Close wait' (s1, w2) = ((s1, w2), Ok tt)) ∧
  (∀ w2, Open (s1, w2) = ((s1, w2), Err ErrStoreInvalidState)).
Proof.
  apply (Close_failure_is_terminal true Examples.store1
           (Examples.world1_faults [Some "busy"])
           (Close true (Examples.store1, Examples.world1_faults [Some "busy"])).1.1
           (Close true (Examples.store1, Examples.world1_faults [Some "busy"])).1.2
           (EnvError "busy")).
  - apply (reach_New "/data" "" false None Examples.world0 Examples.world1).
    vm_compute. reflexivity.
  - vm_compute. reflexivity.
Defined.

(** ** What [Open] opens *)

(** Reads a field of the world through the setters. *)
Ltac run_env :=
  cbv beta iota zeta delta
    [Open Close defer through bind self try env os_Remove os_Open sqlite_NewDB
     DB_Connect Conn_Close Conn_Load Conn_Backup Println set_db set_dbConn
     set_closed modify ret throw panic fault ioutil_TempFile File_Write File_Close
     io_Copy stats_Add fst snd]; simpl.

(** With the [memory] field set, [Open] asks the engine for a transient
    instance and leaves every file alone. *)
Lemma Open_memory_only s w s' w' :
  memory s = true →
  Open (s, w) = ((s', w'), Ok tt) →
  files w' = files w ∧
  ∃ d, db s' = Some d ∧
       instances w' !! sqlite.db_handle d
         = Some (sqlite.mkInstance (dbPath s) (dsn s) true []).
Proof.
  intros Hm. run_env. rewrite Hm. simpl. intros H.
  repeat (case_match; simplify_eq/=); (split; [done|]);
    eexists; (split; [done|]); simpl; by rewrite lookup_insert_eq.
Qed.

(** With the [memory] field unset, [Open] removes the file at [dbPath]
    and asks the engine for an instance in a new file at that path,
    with the [dsn] field as connection string. *)
Lemma Open_file_based s w s' w' :
  memory s = false →
  Open (s, w) = ((s', w'), Ok tt) →
  files w' !! dbPath s = Some [] ∧
  ∃ d, db s' = Some d ∧
       instances w' !! sqlite.db_handle d
         = Some (sqlite.mkInstance (dbPath s) (dsn s) false []).
Proof.
  intros Hm. run_env. rewrite Hm. simpl. intros H.
  repeat (case_match; simplify_eq/=);
    rewrite ?lookup_insert_eq, ?lookup_delete_eq;
    repeat match goal with Hnone : ?x = None |- context [?x] => rewrite Hnone end;
    simpl; (split; [done|]);
    eexists; (split; [done|]); simpl; by rewrite lookup_insert_eq.
Qed.

(** C3, on the code: [NewSQLDB] stores neither its [memory] nor its
    [dsn] argument, so every store it returns has [memory] unset and an
    empty [dsn].  Asked for a memory-only store with a connection
    string, it removes the old file at the database path and opens a
    file-based instance there, with the empty connection string. *)
Theorem NewSQLDB_drops_memory_and_dsn :
  (∀ dir dsn memory logger w,
     NewSQLDB dir dsn memory logger w = NewSQLDB dir "" false logger w) ∧
  let r := NewSQLDB "/data" "cache=shared" true None Examples.world0 in
  files Examples.world0 !! "/data/db.sqlite" = Some [Byte.x2a; Byte.x2a] ∧
  files r.1 !! "/data/db.sqlite" = Some [] ∧
  ∃ s d, r.2 = Ok s ∧ memory s = false ∧ dsn s = "" ∧ db s = Some d ∧
         instances r.1 !! sqlite.db_handle d
           = Some (sqlite.mkInstance "/data/db.sqlite" "" false []).
Proof.
  split; [done|].
  vm_compute. split; [done|]. split; [done|]. eauto 10.
Qed.

(** ** Snapshots: [Backup] and [Restore] *)

Lemma temp_name_fresh w : files w !! temp_name w = None.
Proof. unfold temp_name. apply not_elem_of_dom, (is_fresh (dom (files w))). Qed.

(** *** Inversion of the monad's combinators *)

Lemma bind_Ok {S A B} (c : M S A) (k : A → M S B) s s' b :
  bind c k s = (s', Ok b) → ∃ a s1, c s = (s1, Ok a) ∧ k a s1 = (s', Ok b).
Proof.
  unfold bind. destruct (c s) as [s1 [a|e|m]]; intros H; simplify_eq; eauto.
Qed.

Lemma bind_Err {S A B} (c : M S A) (k : A → M S B) s s' e :
  bind c k s = (s', Err e) →
  c s = (s', Err e) ∨ ∃ a s1, c s = (s1, Ok a) ∧ k a s1 = (s', Err e).
Proof.
  unfold bind. destruct (c s) as [s1 [a|e'|m]]; intros H; simplify_eq; eauto.
Qed.

Lemma defer_inv {S A B} (d : M S B) (c : M S A) s s' r :
  defer d c s = (s', r) → ∃ s1, c s = (s1, r) ∧ s' = (d s1).1.
Proof.
  unfold defer. destruct (c s) as [s1 r1]. intros H; simplify_eq; eauto.
Qed.

Lemma env_inv {X W A} (c : M W A) (x x' : X) w w' r :
  env c (x, w) = ((x', w'), r) → x' = x ∧ c w = (w', r).
Proof.
  unfold env. destruct (c w) as [w1 r1]. intros H; by simplify_eq.
Qed.

Lemma try_inv {S} (c : M S unit) s s' r :
  try c s = (s', r) → ∃ r0, c s = (s', r0).
Proof.
  unfold try. destruct (c s) as [s1 [a|e|m]]; intros H; simplify_eq; eauto.
Qed.

Lemma through_Ok {S A} (o : option sqlite.Conn) (k : sqlite.Conn → M S A) s s' a :
  through o k s = (s', Ok a) → ∃ c, o = Some c ∧ k c s = (s', Ok a).
Proof. destruct o; simpl; [eauto|]. unfold panic. intros; simplify_eq. Qed.

Lemma through_Err {S A} (o : option sqlite.Conn) (k : sqlite.Conn → M S A) s s' e :
  through o k s = (s', Err e) → ∃ c, o = Some c ∧ k c s = (s', Err e).
Proof. destruct o; simpl; [eauto|]. unfold panic. intros; simplify_eq. Qed.

(** *** What the environment's calls do to the files *)

Lemma fault_files w w' r : fault w = (w', r) → files w' = files w.
Proof.
  unfold fault. destruct (faults w) as [|[msg|] fs]; intros; by simplify_eq.
Qed.

Lemma fault_instances w w' r : fault w = (w', r) → instances w' = instances w.
Proof.
  unfold fault. destruct (faults w) as [|[msg|] fs]; intros; by simplify_eq.
Qed.

Lemma ioutil_TempFile_Ok dir pattern w w' f :
  ioutil_TempFile dir pattern w = (w', Ok f) →
  File_Name f = temp_name w ∧ instances w' = instances w.
Proof.
  unfold ioutil_TempFile. intros H.
  apply bind_Ok in H as ([] & w1 & Hf & H).
  pose proof (fault_files _ _ _ Hf) as Hfiles.
  pose proof (fault_instances _ _ _ Hf) as Hinst.
  simplify_eq/=. unfold temp_name. by rewrite Hfiles.
Qed.

Lemma os_Open_Ok name w w' f :
  os_Open name w = (w', Ok f) →
  File_Name f = name ∧ is_Some (files w' !! name).
Proof.
  unfold os_Open. intros H.
  apply bind_Ok in H as ([] & w1 & Hf & H).
  destruct (files w1 !! name) eqn:E; simplify_eq/=. split; [done|].
  rewrite E. eauto.
Qed.

Lemma File_Close_files f w : files (File_Close f w).1 = files w.
Proof.
  unfold File_Close. destruct (fault w) as [w1 r] eqn:Hf.
  by apply fault_files in Hf.
Qed.

Lemma copy_to_buffer_Ok src dst w dst' w' :
  copy_to_buffer src (dst, w) = ((dst', w'), Ok tt) →
  files w' = files w ∧ dst' = dst ++ default [] (files w !! File_Name src).
Proof.
  unfold copy_to_buffer, io_Copy.
  destruct (fault w) as [w1 r] eqn:Hf. apply fault_files in Hf.
  destruct r; intros H; simplify_eq. by rewrite Hf.
Qed.

(** C8, on the code: a [Backup] that returns nil has copied the bytes
    of the temporary file to the end of the destination buffer, and the
    temporary file, which did not exist before the call, exists after
    it: the one [os.Remove] of the body runs before the engine creates
    the file, and nothing removes it afterwards. *)
Theorem Backup_leaves_temp_file s dst w dst' w' :
  Backup s (dst, w) = ((dst', w'), Ok tt) →
  files w !! temp_name w = None ∧
  ∃ img, files w' !! temp_name w = Some img ∧ dst' = dst ++ img.
Proof.
  intros H. split; [apply temp_name_fresh|].
  unfold Backup in H.
  apply bind_Ok in H as (f & [d1 w1] & Htemp & H).
  apply env_inv in Htemp as [-> Htemp].
  apply ioutil_TempFile_Ok in Htemp as [Hname _].
  apply bind_Ok in H as ([] & [d2 w2] & Hclose & H).
  apply env_inv in Hclose as [-> _].
  apply bind_Ok in H as (err & [d3 w3] & Hremove & H).
  apply try_inv in Hremove as [r0 Hremove].
  apply env_inv in Hremove as [-> _].
  apply bind_Ok in H as (db1 & [d4 w4] & Hnew & H).
  apply env_inv in Hnew as [-> _].
  apply bind_Ok in H as (conn & [d5 w5] & Hconn & H).
  apply env_inv in Hconn as [-> _].
  apply bind_Ok in H as ([] & [d6 w6] & Hbackup & H).
  apply through_Ok in Hbackup as (c & _ & Hbackup).
  apply env_inv in Hbackup as [-> _].
  apply bind_Ok in H as ([] & [d7 w7] & Hcc & H).
  apply env_inv in Hcc as [-> _].
  apply bind_Ok in H as (of_ & [d8 w8] & Hopen & H).
  apply env_inv in Hopen as [-> Hopen].
  apply os_Open_Ok in Hopen as [Hof [img Himg]].
  apply defer_inv in H as ([d9 w9] & Hcopy & Hend).
  apply copy_to_buffer_Ok in Hcopy as [Hfiles ->].
  unfold env in Hend. destruct (File_Close of_ w9) as [w10 r10] eqn:Hfc.
  simpl in Hend. simplify_eq.
  pose proof (File_Close_files of_ w9) as Hfc'. rewrite Hfc in Hfc'. simpl in Hfc'.
  exists img. rewrite Hfc', Hfiles, Hof, <- Hname, Himg. done.
Qed.

Lemma Backup_leaves_temp_file_witness :
  files Examples.world2 !! temp_name Examples.world2 = None ∧
  ∃ img,
    files (Backup Examples.store1 ([], Examples.world2)).1.2 !! temp_name Examples.world2
      = Some img ∧
    (Backup Examples.store1 ([], Examples.world2)).1.1 = [] ++ img.
Proof.
  apply (Backup_leaves_temp_file Examples.store1 [] Examples.world2
           (Backup Examples.store1 ([], Examples.world2)).1.1
           (Backup Examples.store1 ([], Examples.world2)).1.2).
  vm_compute. reflexivity.
Defined.

(** *** What a call leaves of the engine's instances *)

Lemma keeps_refl w : keeps w w.
Proof. by intros h _. Qed.

Lemma keeps_trans w1 w2 w3 : keeps w1 w2 → keeps w2 w3 → keeps w1 w3.
Proof.
  intros H12 H23 h Hh. rewrite H23; [by apply H12|].
  by rewrite H12.
Qed.

Lemma keeps_same w w' : instances w' = instances w → keeps w w'.
Proof. intros Heq h _. by rewrite Heq. Qed.

Lemma frame_frame_err {A} (c : M World A) : frame c → frame_err c.
Proof. intros Hc w w' e. apply Hc. Qed.

Lemma frame_bind {A B} (c : M World A) (k : A → M World B) :
  frame c → (∀ a, frame (k a)) → frame (bind c k).
Proof.
  intros Hc Hk w w' r. unfold bind.
  destruct (c w) as [w1 [a|e|m]] eqn:E; intros H; simplify_eq; eauto.
  eapply keeps_trans; [by eapply Hc|by eapply Hk].
Qed.

Lemma frame_err_bind {A B} (c : M World A) (k : A → M World B) :
  frame c → (∀ a, frame_err (k a)) → frame_err (bind c k).
Proof.
  intros Hc Hk w w' e H. apply bind_Err in H as [H|(a & w1 & H1 & H2)].
  - by eapply Hc.
  - eapply keeps_trans; [by eapply Hc|by eapply Hk].
Qed.

Lemma frame_err_bind_last {A B} (c : M World A) (k : A → M World B) :
  frame_err c → (∀ a, no_err (k a)) → frame_err (bind c k).
Proof.
  intros Hc Hk w w' e H. apply bind_Err in H as [H|(a & w1 & H1 & H2)].
  - by eapply Hc.
  - by apply Hk in H2.
Qed.

Lemma frame_err_defer {A B} (d : M World B) (c : M World A) :
  frame d → frame_err c → frame_err (defer d c).
Proof.
  intros Hd Hc w w' e H. apply defer_inv in H as (w1 & H1 & ->).
  eapply keeps_trans; [by eapply Hc|].
  destruct (d w1) as [w2 r] eqn:E. by eapply Hd.
Qed.

Lemma frame_err_through {A} (o : option sqlite.Conn) (k : sqlite.Conn → M World A) :
  (∀ c, frame_err (k c)) → frame_err (through o k).
Proof.
  intros Hk w w' e H. apply through_Err in H as (c & _ & H). by eapply Hk.
Qed.

Lemma frame_fault : frame fault.
Proof. intros w w' r H. apply keeps_same. by eapply fault_instances. Qed.

Lemma frame_ioutil_TempFile dir pattern : frame (ioutil_TempFile dir pattern).
Proof.
  apply frame_bind; [apply frame_fault|].
  intros _ w w' r H. simplify_eq/=. by apply keeps_same.
Qed.

Lemma frame_File_Write f b : frame (File_Write f b).
Proof.
  apply frame_bind; [apply frame_fault|].
  intros _ w w' r H. simplify_eq/=. by apply keeps_same.
Qed.

Lemma frame_File_Close f : frame (File_Close f).
Proof. apply frame_fault. Qed.

Lemma frame_os_Remove name : frame (os_Remove name).
Proof.
  apply frame_bind; [apply frame_fault|].
  intros _ w w' r H. simpl in H.
  destruct (files w !! name); simplify_eq/=; by apply keeps_same.
Qed.

Lemma frame_Conn_Close c : frame (Conn_Close c).
Proof. apply frame_fault. Qed.

Lemma frame_DB_Connect d : frame (DB_Connect d).
Proof.
  apply frame_bind; [apply frame_fault|].
  intros _ w w' r H. simplify_eq/=. by apply keeps_same.
Qed.

(** The engine gives a new instance a handle of its own. *)
Lemma frame_sqlite_NewDB path dsn memory : frame (sqlite_NewDB path dsn memory).
Proof.
  apply frame_bind; [apply frame_fault|].
  intros _ w w' r H. simplify_eq/=. intros h Hh.
  assert (fresh (dom (instances w)) ≠ h) as Hne.
  { intros <-. apply elem_of_dom in Hh. by apply is_fresh in Hh. }
  destruct memory; simpl; by rewrite lookup_insert_ne.
Qed.

(** A [Load] that fails has replaced nothing. *)
Lemma frame_err_Conn_Load target src : frame_err (Conn_Load target src).
Proof.
  apply frame_err_bind_last; [apply frame_frame_err, frame_fault|].
  intros _ w w' e H. unfold modify in H. simplify_eq.
Qed.

Lemma no_err_after_Load : no_err (bind (stats_Add numRestores 1) (λ _, ret tt)).
Proof.
  intros w w' e. unfold bind, stats_Add, ret.
  destruct (stats w); simpl; congruence.
Qed.

Create HintDb frame.
#[local] Hint Resolve frame_ioutil_TempFile frame_File_Write frame_File_Close
  frame_os_Remove frame_Conn_Close frame_DB_Connect frame_sqlite_NewDB
  frame_err_Conn_Load no_err_after_Load : frame.

(** A [Restore] that returns an error leaves every instance alone. *)
Lemma frame_err_Restore s src : frame_err (Restore s src).
Proof.
  unfold Restore.
  apply frame_err_bind; [auto with frame|]; intros f.
  apply frame_err_defer; [auto with frame|].
  apply frame_err_defer; [auto with frame|].
  apply frame_err_bind; [auto with frame|]; intros _.
  apply frame_err_bind; [auto with frame|]; intros d.
  apply frame_err_bind; [auto with frame|]; intros conn.
  apply frame_err_defer; [auto with frame|].
  apply frame_err_bind_last; [|auto with frame].
  apply frame_err_through. auto with frame.
Qed.

Lemma conn_data_keeps w w' c :
  is_Some (instances w !! sqlite.db_handle (sqlite.conn_db c)) →
  keeps w w' → conn_data w' c = conn_data w c.
Proof. intros Hc Hk. unfold conn_data. by rewrite Hk. Qed.

Lemma conn_data_store_data w c d :
  is_Some (instances w !! sqlite.db_handle (sqlite.conn_db c)) →
  conn_data (store_data c d w) c = d.
Proof.
  intros [i Hi]. unfold conn_data, store_data. rewrite Hi.
  destruct (sqlite.inst_memory i); simpl; by rewrite lookup_insert_eq.
Qed.

Section RestoreFailure.
Variable sql_execute :
  bytes → list string → bool → bool → bytes * (list SQLResult * option error).
Variable sql_query :
  bytes → list string → bool → bool → list SQLRows * option error.

(** C1: when [Restore] returns an error, whatever the step that failed,
    the database state behind the store's utility connection is what it
    was before the call: every [Query] and every [Execute] made after it
    answers as it would have answered before it, and [Execute] leaves
    the same state behind. *)
Theorem Restore_failure_keeps_live_state s src w w' e :
  connected s w →
  Restore s src w = (w', Err e) →
  live_data s w' = live_data s w ∧
  ∀ queries atomic,
    (Query sql_query s queries atomic w').2 = (Query sql_query s queries atomic w).2 ∧
    (Execute sql_execute s queries atomic w').2
      = (Execute sql_execute s queries atomic w).2 ∧
    live_data s (Execute sql_execute s queries atomic w').1
      = live_data s (Execute sql_execute s queries atomic w).1.
Proof.
  intros (c & Hc & Hinst) HR.
  apply frame_err_Restore in HR.
  assert (conn_data w' c = conn_data w c) as Hdata by by apply conn_data_keeps.
  assert (is_Some (instances w' !! sqlite.db_handle (sqlite.conn_db c))) as Hinst'
    by by rewrite HR.
  unfold live_data, Query, Execute, Conn_Query, Conn_Execute, bind, ret.
  rewrite Hc. simpl. rewrite Hdata. split; [done|].
  intros queries atomic. split; [done|].
  destruct (sql_execute (conn_data w c) queries atomic true) as [d r]. simpl.
  split; [done|]. by rewrite !conn_data_store_data.
Qed.
End RestoreFailure.

(** The witness has [Load] fail: the snapshot is written and opened,
    the connection is made, and the engine refuses the load. *)
Lemma Restore_failure_keeps_live_state_witness :
  let w := Examples.world1_faults [None; None; None; None; Some "load failed"] in
  let w' := (Restore Examples.store1 [Byte.x07] w).1 in
  (Restore Examples.store1 [Byte.x07] w).2 = Err (EnvError "load failed") ∧
  live_data Examples.store1 w' = live_data Examples.store1 w ∧
  ∀ queries atomic,
    (Query Examples.toy_query Examples.store1 queries atomic w').2
      = (Query Examples.toy_query Examples.store1 queries atomic w).2 ∧
    (Execute Examples.toy_execute Examples.store1 queries atomic w').2
      = (Execute Examples.toy_execute Examples.store1 queries atomic w).2 ∧
    live_data Examples.store1 (Execute Examples.toy_execute Examples.store1 queries atomic w').1
      = live_data Examples.store1
          (Execute Examples.toy_execute Examples.store1 queries atomic w).1.
Proof.
  intros w w'. split; [by vm_compute|].
  apply (Restore_failure_keeps_live_state Examples.toy_execute Examples.toy_query
           Examples.store1 [Byte.x07] w w' (EnvError "load failed")).
  - eexists. split; [by vm_compute|]. vm_compute. eauto.
  - vm_compute. reflexivity.
Defined.

(** The model computes: a snapshot taken with [Backup] and given to
    [Restore] on the same store brings the image back. *)
Example Backup_then_Restore :
  let b := Backup Examples.store1 ([], Examples.world2) in
  let w3 := (Execute Examples.toy_execute Examples.store1 ["INSERT"] false b.1.2).1 in
  let w4 := (Restore Examples.store1 b.1.1 w3).1 in
  b.1.1 = [Byte.x01; Byte.x01; Byte.x01] ∧
  live_data Examples.store1 w3 = Some [Byte.x01; Byte.x01; Byte.x01; Byte.x01] ∧
  live_data Examples.store1 w4 = Some [Byte.x01; Byte.x01; Byte.x01].
Proof. by vm_compute. Qed.

(** ** The endpoint *)

Section EndpointFacts.
Import Endpoint.
Variable Srv : Type.
Variable raftApply : MessageType → Args → M Srv iface.

Lemma return_error_as_result {S} (err : option error) (s : S) :
  return_error err s = (s, as_result err).
Proof. by destruct err. Qed.

Lemma execute_rejected args reply srv srv' e :
  raftApply SQLExecuteRequestType (ExecuteArgs args) srv = (srv', Err e) →
  execute Srv raftApply args (reply, srv) = ((reply, srv'), Err e).
Proof. intros H. unfold execute, bind, env. by rewrite H. Qed.

Lemma query_rejected args reply srv srv' e :
  raftApply SQLQueryRequestType (QueryArgs args) srv = (srv', Err e) →
  query Srv raftApply args (reply, srv) = ((reply, srv'), Err e).
Proof. intros H. unfold query, bind, env. by rewrite H. Qed.

(** C2, amended: for every [Execute] request and for every [Query]
    request, in every state of the server: when the entry is committed
    and applied by the store, the endpoint copies the store's response
    into the reply and returns the overall error of that response: nil
    when the batch has none, whatever error strings its statements
    carry, and the batch's error otherwise.  When the submission is
    rejected or the commit fails ([raftApply] returns an error), and
    when the state machine hands back an error value in place of a
    response, the endpoint returns that error and leaves the reply
    untouched. *)
Theorem endpoint_returns_overall_error :
  (∀ args reply srv srv' r,
     raftApply SQLExecuteRequestType (ExecuteArgs args) srv
       = (srv', Ok (IExecuteResponse r)) →
     SQL_Execute Srv raftApply args (reply, srv) = ((r, srv'), as_result (E_Err r))) ∧
  (∀ args reply srv srv' r,
     raftApply SQLQueryRequestType (QueryArgs args) srv
       = (srv', Ok (IQueryResponse r)) →
     SQL_Query Srv raftApply args (reply, srv) = ((r, srv'), as_result (Q_Err r))) ∧
  (∀ args reply srv srv' e,
     raftApply SQLExecuteRequestType (ExecuteArgs args) srv = (srv', Err e) ∨
     raftApply SQLExecuteRequestType (ExecuteArgs args) srv = (srv', Ok (IError e)) →
     SQL_Execute Srv raftApply args (reply, srv) = ((reply, srv'), Err e)) ∧
  (∀ args reply srv srv' e,
     raftApply SQLQueryRequestType (QueryArgs args) srv = (srv', Err e) ∨
     raftApply SQLQueryRequestType (QueryArgs args) srv = (srv', Ok (IError e)) →
     SQL_Query Srv raftApply args (reply, srv) = ((reply, srv'), Err e)).
Proof.
  split_and!.
  - intros args reply srv srv' r H.
    unfold SQL_Execute, execute, bind, env. rewrite H. simpl.
    apply return_error_as_result.
  - intros args reply srv srv' r H.
    unfold SQL_Query, query, bind, env. rewrite H. simpl.
    apply return_error_as_result.
  - intros args reply srv srv' e [H|H]; [by apply execute_rejected|].
    unfold SQL_Execute, execute, bind, env. by rewrite H.
  - intros args reply srv srv' e [H|H]; [by apply query_rejected|].
    unfold SQL_Query, query, bind, env. by rewrite H.
Qed.
End EndpointFacts.

(** C2, as stated, fails: the entry is committed and the store applies
    it, the batch cannot begin its transaction, and the endpoint
    returns that error to the caller instead of nil. *)
Lemma endpoint_returns_batch_error_counterexample :
  ∃ r srv',
    Examples.raft2 SQLExecuteRequestType (Endpoint.ExecuteArgs Examples.atomic_insert)
      Examples.leader2 = (srv', Ok (Endpoint.IExecuteResponse r)) ∧
    E_Err r = Some (EnvError "cannot start a transaction") ∧
    Endpoint.SQL_Execute Server Examples.raft2 Examples.atomic_insert
      (Examples.no_reply, Examples.leader2)
      = ((r, srv'), Err (EnvError "cannot start a transaction")).
Proof. eexists _, _. vm_compute. repeat split. Qed.

(** The witness has a statement fail inside a batch that has no error
    of its own: the reply carries the statement's error string and the
    endpoint returns nil; a query is answered likewise.  On a node that
    is not the leader, and on a leader whose commit fails, both calls
    return the error and leave the reply as it was. *)
Lemma endpoint_returns_overall_error_witness :
  let e := Endpoint.SQL_Execute Server Examples.raft2 Examples.batch_with_bad
             (Examples.no_reply, Examples.leader2) in
  let q := Endpoint.SQL_Query Server Examples.raft2 Examples.count_rows
             (Examples.no_rows, Examples.leader2) in
  (Result_Error <$> Results e.1.1 = [""; "near BAD: syntax error"] ∧ e.2 = Ok tt) ∧
  e = (e.1, Endpoint.as_result (E_Err e.1.1)) ∧
  q = (q.1, Endpoint.as_result (Q_Err q.1.1)) ∧
  Endpoint.SQL_Execute Server Examples.raft2 Examples.batch_with_bad
    (Examples.no_reply, Examples.follower2)
    = ((Examples.no_reply, Examples.follower2), Err RaftErrNotLeader) ∧
  Endpoint.SQL_Query Server Examples.raft2 Examples.count_rows
    (Examples.no_rows, Examples.lonely2)
    = ((Examples.no_rows, Examples.lonely2), Err (EnvError "no quorum")).
Proof.
  intros e q.
  destruct (endpoint_returns_overall_error Server Examples.raft2)
    as (HE & HQ & HrE & HrQ).
  split; [by vm_compute|]. split_and!.
  - apply (HE Examples.batch_with_bad Examples.no_reply Examples.leader2 e.1.2 e.1.1).
    vm_compute. reflexivity.
  - apply (HQ Examples.count_rows Examples.no_rows Examples.leader2 q.1.2 q.1.1).
    vm_compute. reflexivity.
  - apply HrE. left. vm_compute. reflexivity.
  - apply HrQ. left. vm_compute. reflexivity.
Defined.

(** The draft of the endpoint returns the same for an applied entry. *)
Lemma draft_execute_applied Srv
    (raftApply : MessageType → Endpoint.Args → Srv → Srv * EndpointDraft.Future)
    args reply srv srv' r :
  raftApply SQLExecuteRequestType (Endpoint.ExecuteArgs args) srv
    = (srv', EndpointDraft.mkFuture None (Endpoint.IExecuteResponse r)) →
  EndpointDraft.execute Srv raftApply args (reply, srv)
    = ((r, srv'), Endpoint.as_result (E_Err r)).
Proof.
  intros H. unfold EndpointDraft.execute, EndpointDraft.future_error, bind, env.
  rewrite H. simpl. by destruct (E_Err r).
Qed.

(** ** Concurrent calls: [Restore] against [Execute] and [Query] *)

Section ConcurrentFacts.
#[local] Set Warnings "-clear-no-such-hyp".
Import Concurrent.
Variable sql_execute :
  bytes → list string → bool → bool → bytes * (list SQLResult * option error).
Variable sql_query :
  bytes → list string → bool → bool → list SQLRows * option error.














(** *** The images that the engine calls see *)







End ConcurrentFacts.



(** In the middle of that run the image is torn, two bytes of the
    snapshot over the last byte of the old image, and the waiting query
    has no step: [RLock] needs the lock without a writer. *)
Example torn_image_is_locked_away :
  let mid := Concurrent.mkState (Concurrent.mkRWMutex (Some 0) ∅)
               [Byte.x07; Byte.x08; Byte.x2a] (Some Examples.conc_old)
               (<[0 := Concurrent.RestoreLoad Examples.conc_src 2]>
                  (<[1 := Concurrent.QueryRLock ["SELECT"] false]> ∅)) [] [] in
  ∀ st', Concurrent.step Examples.toy_execute Examples.toy_query mid st' →
         Concurrent.pc_of st' 1 = Concurrent.QueryRLock ["SELECT"] false.
Proof.
  intros mid st' Hstep. inversion Hstep; subst.
  all: match goal with
       | H : _ !! ?i = Some _ |- _ =>
           destruct (decide (i = 1)) as [->|Hne]; [by vm_compute in H|]
       | H : default _ (_ !! ?i) = _ |- _ =>
           destruct (decide (i = 1)) as [->|Hne]; [by vm_compute in H|]
       end.
  all: unfold Concurrent.pc_of; simpl; by rewrite lookup_insert_ne.
Qed.

(** * Further properties *)

(** ** The peer directory: what its lookups and updates add up to *)

Section PeerDirectoryMore.
Import metadata ServerLookup Examples.

(** Every entry sits under its own keys. *)
Lemma keys_match_run ops : ∀ sl,
  (∀ a p, addressToServer sl !! a = Some p → Addr p = a) →
  (∀ i p, idToServer sl !! i = Some p → ID p = i) →
  (∀ a p, addressToServer (run ops sl) !! a = Some p → Addr p = a) ∧
  (∀ i p, idToServer (run ops sl) !! i = Some p → ID p = i).
Proof.
  induction ops as [|op ops IH]; intros sl HA HI; [done|].
  apply IH; destruct op as [q|q]; simpl.
  - intros a p. destruct (decide (Addr q = a)) as [<-|Hne].
    + rewrite lookup_insert_eq. by intros [= ->].
    + rewrite lookup_insert_ne by done. apply HA.
  - intros a p. destruct (decide (Addr q = a)) as [<-|Hne].
    + by rewrite lookup_delete_eq.
    + rewrite lookup_delete_ne by done. apply HA.
  - intros i p. destruct (decide (ID q = i)) as [<-|Hne].
    + rewrite lookup_insert_eq. by intros [= ->].
    + rewrite lookup_insert_ne by done. apply HI.
  - intros i p. destruct (decide (ID q = i)) as [<-|Hne].
    + by rewrite lookup_delete_eq.
    + rewrite lookup_delete_ne by done. apply HI.
Qed.

Lemma keys_match_new ops :
  (∀ a p, addressToServer (run ops NewServerLookup) !! a = Some p → Addr p = a) ∧
  (∀ i p, idToServer (run ops NewServerLookup) !! i = Some p → ID p = i).
Proof. apply keys_match_run; intros ? ?; simpl; by rewrite lookup_empty. Qed.

(** X1: in a directory built from [NewServerLookup] by [AddServer] and
    [RemoveServer], whatever the order and whatever keys the peers
    share, a lookup by address answers a peer that has this address,
    and a lookup by id answers the address of a peer that has this id. *)
Theorem lookups_answer_for_their_key ops addr id :
  (∀ p, Server (run ops NewServerLookup) addr = Some p → Addr p = addr) ∧
  (∀ a, ServerAddr (run ops NewServerLookup) id = (a, None) →
        ∃ p, idToServer (run ops NewServerLookup) !! id = Some p ∧
             ID p = id ∧ Addr p = a).
Proof.
  destruct (keys_match_new ops) as [HA HI]. split.
  - intros p. apply HA.
  - intros a. unfold ServerAddr.
    destruct (idToServer (run ops NewServerLookup) !! id) as [p|] eqn:E; [|done].
    intros [= <-]. exists p. split; [done|]. split; [by eapply HI|done].
Qed.

(** X2: [Servers] lists the peers of the address index and nothing
    else, one for each address: its length is the number of addresses,
    and in a directory built from [NewServerLookup] no two of the
    listed peers have the same address. *)
Theorem Servers_lists_the_address_index ops p :
  (p ∈ Servers (run ops NewServerLookup) ↔
   ∃ addr, Server (run ops NewServerLookup) addr = Some p) ∧
  length (Servers (run ops NewServerLookup))
    = size (addressToServer (run ops NewServerLookup)) ∧
  NoDup (Addr <$> Servers (run ops NewServerLookup)).
Proof.
  destruct (keys_match_new ops) as [HA _].
  set (sl := run ops NewServerLookup) in *. unfold Servers, Server.
  split; [|split].
  - rewrite list_elem_of_fmap. split.
    + intros ([a q] & -> & Hin). exists a. by apply elem_of_map_to_list in Hin.
    + intros (a & Ha). exists (a, p). split; [done|]. by apply elem_of_map_to_list.
  - by rewrite length_fmap, length_map_to_list.
  - assert ((Addr <$> (map_to_list (addressToServer sl)).*2)
            = (map_to_list (addressToServer sl)).*1) as ->.
    { rewrite <- list_fmap_compose. apply list_fmap_ext.
      intros i [a q] Hi. simpl. apply HA.
      apply elem_of_map_to_list. by eapply list_elem_of_lookup_2. }
    apply NoDup_fst_map_to_list.
Qed.

(** X3: adding a peer again, or another record with the same id and the
    same address, replaces the entry: the directory is the one that the
    last [AddServer] alone gives. *)
Theorem AddServer_last_wins sl p q :
  ID p = ID q → Addr p = Addr q →
  AddServer (AddServer sl p) q = AddServer sl q.
Proof.
  intros Hid Haddr. unfold AddServer; simpl.
  rewrite Hid, Haddr. by rewrite !insert_insert_eq.
Qed.

Lemma AddServer_last_wins_witness :
  AddServer (AddServer NewServerLookup peerA) (mkServer "node-a" "10.0.0.1:8300" "renamed")
  = AddServer NewServerLookup (mkServer "node-a" "10.0.0.1:8300" "renamed").
Proof.
  apply (AddServer_last_wins NewServerLookup peerA
           (mkServer "node-a" "10.0.0.1:8300" "renamed")); reflexivity.
Defined.

(** X4: [RemoveServer] undoes [AddServer] of a peer whose id and whose
    address the directory did not hold. *)
Theorem RemoveServer_undoes_AddServer sl p :
  Server sl (Addr p) = None → idToServer sl !! ID p = None →
  RemoveServer (AddServer sl p) p = sl.
Proof.
  intros Haddr Hid. destruct sl as [am im]. unfold Server in Haddr.
  unfold RemoveServer, AddServer; simpl in *.
  by rewrite !delete_insert_id.
Qed.

Lemma RemoveServer_undoes_AddServer_witness :
  RemoveServer (AddServer (AddServer NewServerLookup peerA) peerC) peerC
  = AddServer NewServerLookup peerA.
Proof.
  apply (RemoveServer_undoes_AddServer (AddServer NewServerLookup peerA) peerC);
    reflexivity.
Defined.

(** X5: updates that concern peers with different ids and different
    addresses commute. *)
Theorem unrelated_updates_commute sl a b :
  ID (op_server a) ≠ ID (op_server b) →
  Addr (op_server a) ≠ Addr (op_server b) →
  apply_op (apply_op sl a) b = apply_op (apply_op sl b) a.
Proof.
  intros Hid Haddr.
  destruct a as [p|p], b as [q|q]; unfold apply_op, AddServer, RemoveServer;
    simpl in *; f_equal.
  all: first [ by apply insert_insert_ne
             | by apply delete_insert_ne
             | by (symmetry; apply delete_insert_ne)
             | by apply delete_delete ].
Qed.

Lemma unrelated_updates_commute_witness :
  apply_op (apply_op NewServerLookup (OpAdd peerA)) (OpRemove peerC)
  = apply_op (apply_op NewServerLookup (OpRemove peerC)) (OpAdd peerA).
Proof.
  apply (unrelated_updates_commute NewServerLookup (OpAdd peerA) (OpRemove peerC));
    discriminate.
Defined.

End PeerDirectoryMore.

(** ** The life cycle of the store: what a call leaves *)

(** Every way [Open] returns nil on a store that is not closed. *)
Lemma Open_Ok s w s' w' :
  closed s = false →
  Open (s, w) = ((s', w'), Ok tt) →
  ∃ d c, s' = with_dbConn (Some c) (with_db (Some d) s) ∧
         sqlite.conn_db c = d ∧
         instances w' !! sqlite.db_handle d
           = Some (sqlite.mkInstance (dbPath s) (dsn s) (memory s) []) ∧
         (if memory s then files w' = files w else files w' !! dbPath s = Some []).
Proof.
  intros Hc. run_env. rewrite Hc. intros H.
  destruct (memory s) eqn:Hm; simpl in *;
    repeat (case_match; simplify_eq/=);
    rewrite ?lookup_delete_eq;
    repeat match goal with Hnone : ?x = None |- context [?x] => rewrite Hnone end;
    simpl; eexists _, _; (split; [done|]); (split; [done|]); simpl;
    rewrite ?lookup_insert_eq; done.
Qed.



(** X7: [NewSQLDB] never panics: it replaces a nil logger before it
    calls [Open], and [Open] dereferences nothing else that can be nil.
    It returns a store or an error, and the error is never the
    invalid-state error: the struct it opens is new. *)
Theorem NewSQLDB_never_panics dir dsn0 mem lg w :
  (∃ s, (NewSQLDB dir dsn0 mem lg w).2 = Ok s) ∨
  (∃ e, (NewSQLDB dir dsn0 mem lg w).2 = Err e ∧ e ≠ ErrStoreInvalidState).
Proof.
  unfold NewSQLDB.
  destruct (Open _) as [[s1 w1] [[]|e|m]] eqn:HO; simpl; [by eauto| |].
  - right. exists e. split; [done|]. intros ->.
    eapply Open_not_closed_not_InvalidState; [|by rewrite HO]. done.
  - exfalso.
    apply Open_cases in HO as [(? & _)|[(e & ? & _)|(m' & _ & _ & Hlog)]];
      try done.
    simpl in Hlog. by destruct lg.
Qed.

(** X8: an [Open] that returns nil leaves the store open on an empty
    database, whatever the store held before: both handles are set, the
    new connection addresses a new instance of the engine, and the
    image behind it is empty. *)
Theorem Open_opens_an_empty_database s w s' w' :
  closed s = false →
  Open (s, w) = ((s', w'), Ok tt) →
  fully_open s' ∧ closed s' = false ∧ connected s' w' ∧
  live_data s' w' = Some [] ∧
  (∀ d, db s' = Some d → instances w !! sqlite.db_handle d = None).
Proof.
  intros Hc HO. pose proof HO as HO'.
  apply Open_Ok in HO as (d & c & -> & <- & Hi & _); [|done]. simpl.
  split_and!.
  - split; simpl; eauto.
  - done.
  - exists c. split; [done|]. rewrite Hi. eauto.
  - unfold live_data, conn_data; simpl. by rewrite Hi.
  - intros d [= <-]. revert HO'. run_env. rewrite Hc. intros H.
    repeat (case_match; simplify_eq/=);
      apply not_elem_of_dom, is_fresh.
Qed.

Lemma Open_opens_an_empty_database_witness :
  let r := Open (Examples.store1, Examples.world2) in
  live_data Examples.store1 Examples.world2
    = Some [Byte.x01; Byte.x01; Byte.x01] ∧
  fully_open r.1.1 ∧ closed r.1.1 = false ∧ connected r.1.1 r.1.2 ∧
  live_data r.1.1 r.1.2 = Some [] ∧
  (∀ d, db r.1.1 = Some d → instances Examples.world2 !! sqlite.db_handle d = None).
Proof.
  split; [by vm_compute|].
  apply (Open_opens_an_empty_database Examples.store1 Examples.world2
           (Open (Examples.store1, Examples.world2)).1.1
           (Open (Examples.store1, Examples.world2)).1.2).
  - reflexivity.
  - vm_compute. reflexivity.
Defined.

(** X9: in an environment that does not fail, [Open] returns nil on
    every store that is not closed and has a logger, whether the
    database file exists or not: the not-exist error of [os.Remove] is
    passed over. *)
Theorem Open_succeeds_in_a_calm_environment s w :
  calm w → closed s = false → is_Some (logger s) →
  (Open (s, w)).2 = Ok tt.
Proof.
  unfold calm. intros Hf Hc [l Hl]. run_env. rewrite Hc, Hl.
  destruct (memory s); simpl; repeat (rewrite Hf; simpl); [done|].
  destruct (files w !! dbPath s); simpl; repeat (rewrite Hf; simpl); done.
Qed.

Lemma Open_succeeds_in_a_calm_environment_witness :
  files Examples.world1 !! "/nowhere/db.sqlite" = None ∧
  (Open (mkSQLDB "/nowhere/db.sqlite" "" false None None false
           (Some (mkLogger "[store] ")), Examples.world1)).2 = Ok tt.
Proof.
  split; [by vm_compute|].
  apply (Open_succeeds_in_a_calm_environment
           (mkSQLDB "/nowhere/db.sqlite" "" false None None false
              (Some (mkLogger "[store] "))) Examples.world1).
  - reflexivity.
  - reflexivity.
  - simpl. eauto.
Defined.

(** X10: on a file-based store, the database file that existed before
    [Open] does not outlive the call, unless the call fails before or at
    the removal and changes nothing: in every other case, also when
    [Open] then fails or panics, the file at [dbPath] is absent or
    empty afterwards. *)
Theorem Open_discards_the_old_file s w s' w' r :
  closed s = false → memory s = false →
  Open (s, w) = ((s', w'), r) →
  (files w' = files w ∧ s' = s ∧ ∃ e, r = Err e) ∨
  files w' !! dbPath s = None ∨ files w' !! dbPath s = Some [].
Proof.
  intros Hc Hm. run_env. rewrite Hc, Hm. simpl. intros H.
  repeat (case_match; simplify_eq/=);
    rewrite ?lookup_insert_eq, ?lookup_delete_eq;
    repeat match goal with Hnone : ?x = None |- context [?x] => rewrite Hnone end;
    simpl; eauto 6.
Qed.

(** The witness has [NewDB] fail behind a removal that worked: the
    store is untouched and the file is gone. *)
Lemma Open_discards_the_old_file_witness :
  let s0 := mkSQLDB "/data/db.sqlite" "" false None None false
              (Some (mkLogger "[store] ")) in
  let r := Open (s0, set_faults [None; Some "disk full"] Examples.world0) in
  files Examples.world0 !! "/data/db.sqlite" = Some [Byte.x2a; Byte.x2a] ∧
  r.2 = Err (EnvError "disk full") ∧
  ((files r.1.2 = files (set_faults [None; Some "disk full"] Examples.world0) ∧
    r.1.1 = s0 ∧ ∃ e, r.2 = Err e) ∨
   files r.1.2 !! dbPath s0 = None ∨ files r.1.2 !! dbPath s0 = Some []).
Proof.
  split; [by vm_compute|]. split; [by vm_compute|].
  apply (Open_discards_the_old_file
           (mkSQLDB "/data/db.sqlite" "" false None None false
              (Some (mkLogger "[store] ")))
           (set_faults [None; Some "disk full"] Examples.world0)).
  - reflexivity.
  - reflexivity.
  - vm_compute. reflexivity.
Defined.

Lemma Open_same_configuration s w : same_configuration s (Open (s, w)).1.1.
Proof.
  destruct (closed s) eqn:Hc.
  - by rewrite Open_closed.
  - destruct (Open (s, w)) as [[s' w'] r] eqn:HO.
    apply Open_cases in HO
      as [(_ & d & c & ->)|[(e & _ & _ & [->|(d & -> & _)])|(m & _ & -> & _)]];
      done.
Qed.

Lemma Close_same_configuration wait s w : same_configuration s (Close wait (s, w)).1.1.
Proof.
  destruct (closed s) eqn:Hc.
  - by rewrite Close_closed.
  - destruct (Close wait (s, w)) as [[s' w'] r] eqn:HC.
    apply Close_cases in HC as [(_ & _ & ->)|[(e & _ & _ & ->)|(m & _ & _ & ->)]];
      done.
Qed.

Lemma reachable_file_based s : reachable s → memory s = false ∧ dsn s = "".
Proof.
  induction 1 as [dir dsn0 mem lg w w' s HN| |s w s' w' r _ IH HO
                 |wait s w s' w' r _ IH HC].
  - unfold NewSQLDB in HN.
    destruct (Open _) as [[s1 w1] [[]| |]] eqn:HO; simplify_eq.
    match type of HO with
    | Open (?s0, _) = _ => pose proof (Open_same_configuration s0 w) as Hcfg
    end.
    rewrite HO in Hcfg. simpl in Hcfg. by destruct Hcfg as (_ & -> & -> & _).
  - done.
  - pose proof (Open_same_configuration s w) as Hcfg. rewrite HO in Hcfg.
    simpl in Hcfg. destruct Hcfg as (_ & -> & -> & _). done.
  - pose proof (Close_same_configuration wait s w) as Hcfg. rewrite HC in Hcfg.
    simpl in Hcfg. destruct Hcfg as (_ & -> & -> & _). done.
Qed.

(** X11: [Open] and [Close] never write the path, the connection
    string, the memory flag or the logger of the struct; so every store
    a caller can hold, after any calls, is file-based with an empty
    connection string. *)
Theorem lifecycle_keeps_the_configuration s w wait :
  reachable s →
  memory s = false ∧ dsn s = "" ∧
  same_configuration s (Open (s, w)).1.1 ∧
  same_configuration s (Close wait (s, w)).1.1.
Proof.
  intros Hs. apply reachable_file_based in Hs as [Hm Hd].
  split_and!; [done|done|apply Open_same_configuration|apply Close_same_configuration].
Qed.

Lemma lifecycle_keeps_the_configuration_witness :
  memory Examples.store1 = false ∧ dsn Examples.store1 = "" ∧
  same_configuration Examples.store1 (Open (Examples.store1, Examples.world2)).1.1 ∧
  same_configuration Examples.store1 (Close true (Examples.store1, Examples.world2)).1.1.
Proof.
  apply (lifecycle_keeps_the_configuration Examples.store1 Examples.world2 true).
  apply (reach_New "/data" "" false None Examples.world0 Examples.world1).
  vm_compute. reflexivity.
Defined.

(** X12: a closed store is frozen: in any sequence of [Open] and
    [Close] calls every [Open] returns the invalid-state error and
    every [Close] nil, and neither the struct nor the world changes. *)
Theorem closed_store_is_frozen calls s w :
  closed s = true →
  run_calls calls (s, w) = ((s, w), closed_answer <$> calls).
Proof.
  intros Hc. induction calls as [|c calls IH]; [done|].
  simpl. destruct c as [|wait]; simpl.
  - rewrite Open_closed by done. by rewrite IH.
  - rewrite Close_closed by done. by rewrite IH.
Qed.

Lemma closed_store_is_frozen_witness :
  run_calls [CallOpen; CallClose false; CallOpen] (Examples.store1_closed, Examples.world2)
  = ((Examples.store1_closed, Examples.world2),
     [Err ErrStoreInvalidState; Ok tt; Err ErrStoreInvalidState]).
Proof.
  apply (closed_store_is_frozen [CallOpen; CallClose false; CallOpen]
           Examples.store1_closed Examples.world2).
  reflexivity.
Defined.

(** X13: a [Close] that returns nil on a store that was not closed has
    closed the utility connection, cleared both handles and set
    [closed]; it writes no other field. *)
Theorem Close_clears_both_handles wait s w s' w' :
  closed s = false →
  Close wait (s, w) = ((s', w'), Ok tt) →
  is_Some (dbConn s) ∧ fully_closed s' ∧ closed s' = true ∧
  same_configuration s s'.
Proof.
  intros Hc HC.
  apply Close_cases in HC as [(_ & Hconn & ->)|[(e & ? & _)|(m & ? & _)]]; done.
Qed.

Lemma Close_clears_both_handles_witness :
  is_Some (dbConn Examples.store1) ∧ fully_closed Examples.store1_closed ∧
  closed Examples.store1_closed = true ∧
  same_configuration Examples.store1 Examples.store1_closed.
Proof.
  apply (Close_clears_both_handles true Examples.store1 Examples.world1
           Examples.store1_closed (Close true (Examples.store1, Examples.world1)).1.2).
  - reflexivity.
  - vm_compute. reflexivity.
Defined.

(** ** Snapshots: what [Restore] installs and [Backup] copies *)

(** *** Properties kept along a body *)

Lemma preserves_bind {S A B} (P : S → Prop) (c : M S A) (k : A → M S B) :
  preserves P c → (∀ a, preserves P (k a)) → preserves P (bind c k).
Proof.
  intros Hc Hk s s' r. unfold bind.
  destruct (c s) as [s1 [a|e|m]] eqn:E; intros H HP.
  - eapply Hk; [done|]. by eapply Hc.
  - simplify_eq. by eapply Hc.
  - simplify_eq. by eapply Hc.
Qed.

Lemma preserves_defer {S A B} (P : S → Prop) (d : M S B) (c : M S A) :
  preserves P d → preserves P c → preserves P (defer d c).
Proof.
  intros Hd Hc s s' r H HP. apply defer_inv in H as (s1 & H1 & ->).
  destruct (d s1) as [s2 r2] eqn:E. simpl.
  eapply Hd; [done|]. by eapply Hc.
Qed.

Lemma preserves_through {S A} (P : S → Prop) (o : option sqlite.Conn)
    (k : sqlite.Conn → M S A) :
  (∀ c, preserves P (k c)) → preserves P (through o k).
Proof.
  intros Hk s s' r. destruct o as [c|]; simpl; [apply Hk|].
  unfold panic. intros H HP. by simplify_eq.
Qed.

Lemma preserves_ret {S A} (P : S → Prop) (a : A) : preserves P (ret a).
Proof. intros s s' r H HP. unfold ret in H. by simplify_eq. Qed.






(** One call of the environment keeps a property that reads fields the
    call does not write. *)
Ltac call_preserves :=
  intros w w' r H HP; revert H; unfold Conn_Load, Conn_Backup, store_data;
  run_env; intros H; unfold calm in *;
  repeat (case_match; simplify_eq/=); done.


Lemma calm_ioutil_TempFile dir pattern : preserves calm (ioutil_TempFile dir pattern).
Proof. call_preserves. Qed.
Lemma calm_File_Write f b : preserves calm (File_Write f b).
Proof. call_preserves. Qed.
Lemma calm_File_Close f : preserves calm (File_Close f).
Proof. call_preserves. Qed.
Lemma calm_sqlite_NewDB path dsn0 mem : preserves calm (sqlite_NewDB path dsn0 mem).
Proof. call_preserves. Qed.
Lemma calm_DB_Connect d : preserves calm (DB_Connect d).
Proof. call_preserves. Qed.
Lemma calm_Conn_Close c : preserves calm (Conn_Close c).
Proof. call_preserves. Qed.
Lemma calm_Conn_Load target src : preserves calm (Conn_Load target src).
Proof. call_preserves. Qed.
Lemma calm_stats_Add key delta : preserves calm (stats_Add key delta).
Proof. call_preserves. Qed.

(** *** What the calls of a body give when they work *)

Lemma fault_same w w' r :
  fault w = (w', r) →
  files w' = files w ∧ instances w' = instances w ∧ stats w' = stats w.
Proof.
  unfold fault. destruct (faults w) as [|[msg|] fs]; intros; by simplify_eq.
Qed.

Lemma ioutil_TempFile_Ok_full dir pattern w w' f :
  ioutil_TempFile dir pattern w = (w', Ok f) →
  File_Name f = temp_name w ∧
  files w' = <[temp_name w := []]> (files w) ∧ instances w' = instances w.
Proof.
  unfold ioutil_TempFile. intros H.
  apply bind_Ok in H as ([] & w1 & Hf & H).
  apply fault_same in Hf as (Hfiles & Hinst & _).
  simplify_eq/=. unfold temp_name. by rewrite Hfiles, Hinst.
Qed.

Lemma File_Write_Ok f b w w' n :
  File_Write f b w = (w', Ok n) →
  files w' = alter (λ old, old ++ b) (File_Name f) (files w) ∧
  instances w' = instances w.
Proof.
  unfold File_Write. intros H.
  apply bind_Ok in H as ([] & w1 & Hf & H).
  apply fault_same in Hf as (Hfiles & Hinst & _).
  simplify_eq/=. by rewrite Hfiles, Hinst.
Qed.

Lemma sqlite_NewDB_Ok path dsn0 w w' d :
  sqlite_NewDB path dsn0 false w = (w', Ok d) →
  sqlite.db_handle d = fresh (dom (instances w)) ∧
  instances w' = <[sqlite.db_handle d :=
                     sqlite.mkInstance path dsn0 false (default [] (files w !! path))]>
                   (instances w) ∧
  files w' = <[path := default [] (files w !! path)]> (files w).
Proof.
  unfold sqlite_NewDB. intros H.
  apply bind_Ok in H as ([] & w1 & Hf & H).
  apply fault_same in Hf as (Hfiles & Hinst & _).
  simplify_eq/=. by rewrite Hfiles, Hinst.
Qed.

Lemma DB_Connect_Ok d w w' c :
  DB_Connect d w = (w', Ok c) →
  sqlite.conn_db c = d ∧ files w' = files w ∧ instances w' = instances w.
Proof.
  unfold DB_Connect. intros H.
  apply bind_Ok in H as ([] & w1 & Hf & H).
  apply fault_same in Hf as (Hfiles & Hinst & _).
  by simplify_eq/=.
Qed.

(** [Load] and [Backup] of the engine store the source's image for the
    target. *)
Lemma Conn_Load_Ok target src w w' :
  Conn_Load target src w = (w', Ok tt) →
  ∃ w0, files w0 = files w ∧ instances w0 = instances w ∧
        w' = store_data target (conn_data w0 src) w0.
Proof.
  unfold Conn_Load. intros H.
  apply bind_Ok in H as ([] & w1 & Hf & H).
  apply fault_same in Hf as (Hfiles & Hinst & _).
  unfold modify in H. simplify_eq. eauto.
Qed.

Lemma Conn_Backup_Ok src dst w w' :
  Conn_Backup src dst w = (w', Ok tt) →
  ∃ w0, files w0 = files w ∧ instances w0 = instances w ∧
        w' = store_data dst (conn_data w0 src) w0.
Proof.
  unfold Conn_Backup. intros H.
  apply bind_Ok in H as ([] & w1 & Hf & H).
  apply fault_same in Hf as (Hfiles & Hinst & _).
  unfold modify in H. simplify_eq. eauto.
Qed.

Lemma stats_Add_Ok key delta w w' :
  stats_Add key delta w = (w', Ok tt) →
  files w' = files w ∧ instances w' = instances w ∧
  ∃ m, stats w = Some m ∧
       stats w' = Some (<[key := (default 0 (m !! key) + delta)%Z]> m).
Proof.
  unfold stats_Add. destruct (stats w) as [m|] eqn:E; intros H; simplify_eq/=.
  eauto.
Qed.

Lemma conn_data_same w w' c :
  instances w' = instances w → conn_data w' c = conn_data w c.
Proof. unfold conn_data. by intros ->. Qed.

Lemma store_data_files_of c d w i :
  instances w !! sqlite.db_handle (sqlite.conn_db c) = Some i →
  sqlite.inst_memory i = false →
  files (store_data c d w) !! sqlite.inst_path i = Some d.
Proof.
  intros Hi Hm. unfold store_data. rewrite Hi, Hm. simpl.
  by rewrite lookup_insert_eq.
Qed.

(** The instances after the calls that [Restore] and [Backup] defer. *)
Lemma instances_after_fault w : instances (fault w).1 = instances w.
Proof. destruct (fault w) as [w' r] eqn:E. by apply fault_same in E as (_ & ? & _). Qed.

Lemma instances_after_os_Remove name w : instances (os_Remove name w).1 = instances w.
Proof.
  unfold os_Remove, bind. destruct (fault w) as [w1 [[]|e|m]] eqn:E;
    apply fault_same in E as (_ & Hi & _); simpl; [|done..].
  by destruct (files w1 !! name).
Qed.

(** The image that a [Restore] that returns nil leaves behind the
    store's connection. *)
Lemma Restore_Ok_data s src w w' c :
  Restore s src w = (w', Ok tt) →
  dbConn s = Some c →
  is_Some (instances w !! sqlite.db_handle (sqlite.conn_db c)) →
  conn_data w' c = src ∧
  is_Some (instances w' !! sqlite.db_handle (sqlite.conn_db c)).
Proof.
  intros H Hc Hlive. unfold Restore in H.
  apply bind_Ok in H as (f & w1 & Htemp & H).
  apply ioutil_TempFile_Ok_full in Htemp as (Hname & Hf1 & Hi1).
  apply defer_inv in H as (w8 & H & ->).
  apply defer_inv in H as (w7 & H & ->).
  apply bind_Ok in H as (n & w2 & Hwrite & H).
  apply File_Write_Ok in Hwrite as (Hf2 & Hi2).
  apply bind_Ok in H as (d & w3 & Hnew & H).
  apply sqlite_NewDB_Ok in Hnew as (Hd & Hi3 & Hf3).
  apply bind_Ok in H as (conn & w4 & Hconn & H).
  apply DB_Connect_Ok in Hconn as (Hcd & Hf4 & Hi4).
  apply defer_inv in H as (w6 & H & ->).
  apply bind_Ok in H as ([] & w5 & Hload & H).
  rewrite Hc in Hload. simpl in Hload.
  apply Conn_Load_Ok in Hload as (w0 & Hf0 & Hi0 & ->).
  apply bind_Ok in H as ([] & w9 & Hadd & H).
  apply stats_Add_Ok in Hadd as (_ & Hi9 & _).
  unfold ret in H. simplify_eq.
  (* the snapshot is the image of the temporary instance *)
  assert (files w2 !! File_Name f = Some src) as Hsrc.
  { rewrite Hf2, lookup_alter_eq, Hf1, Hname, lookup_insert_eq. done. }
  assert (conn_data w0 conn = src) as Hdata.
  { unfold conn_data. rewrite Hi0, Hi4, Hi3, lookup_insert_eq. simpl.
    by rewrite Hsrc. }
  (* the store's own instance is still there *)
  assert (is_Some (instances w0 !! sqlite.db_handle (sqlite.conn_db c))) as Hlive0.
  { rewrite Hi0, Hi4, Hi3, Hd. rewrite lookup_insert_ne; [by rewrite Hi2, Hi1|].
    intros Heq. rewrite <- Hi1, <- Hi2 in Hlive.
    apply elem_of_dom in Hlive. rewrite <- Heq in Hlive. by apply is_fresh in Hlive. }
  assert (instances (os_Remove (File_Name f) (File_Close f (Conn_Close conn w6).1).1).1
          = instances (store_data c (conn_data w0 conn) w0)) as Hend.
  { rewrite instances_after_os_Remove. unfold File_Close, Conn_Close.
    by rewrite !instances_after_fault. }
  split.
  - rewrite (conn_data_same _ _ c Hend). rewrite conn_data_store_data by done. done.
  - rewrite Hend. destruct Hlive0 as [i Hi]. unfold store_data. rewrite Hi.
    destruct (sqlite.inst_memory i); simpl; rewrite lookup_insert_eq; eauto.
Qed.

Lemma os_Open_Ok_full name w w' f :
  os_Open name w = (w', Ok f) →
  File_Name f = name ∧ files w' = files w ∧ instances w' = instances w.
Proof.
  unfold os_Open. intros H.
  apply bind_Ok in H as ([] & w1 & Hf & H).
  apply fault_same in Hf as (Hfiles & Hinst & _).
  destruct (files w1 !! name) eqn:E; by simplify_eq/=.
Qed.

Lemma copy_to_buffer_Ok_instances src dst w dst' w' :
  copy_to_buffer src (dst, w) = ((dst', w'), Ok tt) → instances w' = instances w.
Proof.
  unfold copy_to_buffer, io_Copy.
  destruct (fault w) as [w1 r] eqn:Hf. apply fault_same in Hf as (_ & Hi & _).
  destruct r; intros H; by simplify_eq.
Qed.

Lemma store_data_other c d w h :
  h ≠ sqlite.db_handle (sqlite.conn_db c) →
  instances (store_data c d w) !! h = instances w !! h.
Proof.
  intros Hne. unfold store_data.
  destruct (instances w !! sqlite.db_handle (sqlite.conn_db c)) as [i|]; [|done].
  destruct (sqlite.inst_memory i); simpl; by rewrite lookup_insert_ne.
Qed.

(** The buffer and the image that a [Backup] that returns nil leaves. *)
Lemma Backup_Ok_buffer s dst w dst' w' c :
  Backup s (dst, w) = ((dst', w'), Ok tt) →
  dbConn s = Some c →
  is_Some (instances w !! sqlite.db_handle (sqlite.conn_db c)) →
  dst' = dst ++ conn_data w c ∧
  instances w' !! sqlite.db_handle (sqlite.conn_db c)
    = instances w !! sqlite.db_handle (sqlite.conn_db c).
Proof.
  intros H Hc Hlive. unfold Backup in H.
  apply bind_Ok in H as (f & [d1 w1] & Htemp & H).
  apply env_inv in Htemp as [-> Htemp].
  apply ioutil_TempFile_Ok_full in Htemp as (Hname & _ & Hi1).
  apply bind_Ok in H as ([] & [d2 w2] & Hclose & H).
  apply env_inv in Hclose as [-> Hclose].
  apply fault_same in Hclose as (_ & Hi2 & _).
  apply bind_Ok in H as (err & [d3 w3] & Hremove & H).
  apply try_inv in Hremove as [r0 Hremove].
  apply env_inv in Hremove as [-> Hremove].
  pose proof (instances_after_os_Remove (File_Name f) w2) as Hi3.
  rewrite Hremove in Hi3. simpl in Hi3.
  apply bind_Ok in H as (d & [d4 w4] & Hnew & H).
  apply env_inv in Hnew as [-> Hnew].
  apply sqlite_NewDB_Ok in Hnew as (Hd & Hi4 & _).
  apply bind_Ok in H as (conn & [d5 w5] & Hconn & H).
  apply env_inv in Hconn as [-> Hconn].
  apply DB_Connect_Ok in Hconn as (Hcd & _ & Hi5).
  apply bind_Ok in H as ([] & [d6 w6] & Hbackup & H).
  rewrite Hc in Hbackup. simpl in Hbackup.
  apply env_inv in Hbackup as [-> Hbackup].
  apply Conn_Backup_Ok in Hbackup as (w0 & _ & Hi0 & ->).
  apply bind_Ok in H as ([] & [d7 w7] & Hcc & H).
  apply env_inv in Hcc as [-> Hcc].
  apply fault_same in Hcc as (Hf7 & Hi7 & _).
  apply bind_Ok in H as (of_ & [d8 w8] & Hopen & H).
  apply env_inv in Hopen as [-> Hopen].
  apply os_Open_Ok_full in Hopen as (Hof & Hf8 & Hi8).
  apply defer_inv in H as ([d9 w9] & Hcopy & Hend).
  pose proof (copy_to_buffer_Ok_instances _ _ _ _ _ Hcopy) as Hi9.
  apply copy_to_buffer_Ok in Hcopy as [Hf9 ->].
  unfold env in Hend. destruct (File_Close of_ w9) as [w10 r10] eqn:Hfc.
  simpl in Hend. simplify_eq.
  apply fault_same in Hfc as (_ & Hi10 & _).
  (* the handle of the temporary instance is not the store's *)
  assert (sqlite.db_handle (sqlite.conn_db c)
          ≠ sqlite.db_handle (sqlite.conn_db conn)) as Hne.
  { intros Heq. rewrite Hd, Hi3, Hi2, Hi1 in Heq.
    apply elem_of_dom in Hlive. rewrite Heq in Hlive. by apply is_fresh in Hlive. }
  assert (instances w0 !! sqlite.db_handle (sqlite.conn_db c)
          = instances w !! sqlite.db_handle (sqlite.conn_db c)) as Hsame.
  { rewrite Hi0, Hi5, Hi4, lookup_insert_ne by done. by rewrite Hi3, Hi2, Hi1. }
  split.
  - f_equal. rewrite Hf8, Hf7, Hof.
    rewrite (store_data_files_of conn _ w0
               (sqlite.mkInstance (File_Name f) "" false
                  (default [] (files w3 !! File_Name f)))); simpl; [| |done].
    + unfold conn_data. by rewrite Hsame.
    + by rewrite Hi0, Hi5, Hi4, lookup_insert_eq.
  - rewrite Hi10, Hi9, Hi8, Hi7, store_data_other by done. done.
Qed.

(** X14: a [Restore] that returns nil has installed the snapshot: the
    database state behind the store's utility connection is the byte
    sequence it was given, whatever the state was before. *)
Theorem Restore_installs_the_snapshot s src w w' :
  connected s w →
  Restore s src w = (w', Ok tt) →
  live_data s w' = Some src ∧ connected s w'.
Proof.
  intros (c & Hc & Hlive) H.
  destruct (Restore_Ok_data s src w w' c H Hc Hlive) as [Hdata Hlive'].
  split.
  - unfold live_data. rewrite Hc. simpl. by rewrite Hdata.
  - by exists c.
Qed.

Lemma Restore_installs_the_snapshot_witness :
  let w' := (Restore Examples.store1 [Byte.x07; Byte.x08] Examples.world2).1 in
  live_data Examples.store1 Examples.world2 = Some [Byte.x01; Byte.x01; Byte.x01] ∧
  live_data Examples.store1 w' = Some [Byte.x07; Byte.x08] ∧
  connected Examples.store1 w'.
Proof.
  split; [by vm_compute|].
  apply (Restore_installs_the_snapshot Examples.store1 [Byte.x07; Byte.x08]
           Examples.world2).
  - eexists. split; [by vm_compute|]. vm_compute. eauto.
  - vm_compute. reflexivity.
Defined.

(** X15: a [Backup] that returns nil has appended the database state
    behind the store's utility connection to the destination buffer,
    behind what the buffer held, and has left that state as it was. *)
Theorem Backup_appends_the_live_image s dst w dst' w' :
  connected s w →
  Backup s (dst, w) = ((dst', w'), Ok tt) →
  Some dst' = (λ img, dst ++ img) <$> live_data s w ∧
  live_data s w' = live_data s w ∧ connected s w'.
Proof.
  intros (c & Hc & Hlive) H.
  destruct (Backup_Ok_buffer s dst w dst' w' c H Hc Hlive) as [-> Hsame].
  unfold live_data, connected, conn_data. rewrite Hc. simpl. rewrite Hsame.
  split_and!; [done|done|]. exists c. by rewrite Hsame.
Qed.

Lemma Backup_appends_the_live_image_witness :
  let r := Backup Examples.store1 ([Byte.xff], Examples.world2) in
  r.1.1 = [Byte.xff; Byte.x01; Byte.x01; Byte.x01] ∧
  Some r.1.1 = (λ img, [Byte.xff] ++ img) <$> live_data Examples.store1 Examples.world2 ∧
  live_data Examples.store1 r.1.2 = live_data Examples.store1 Examples.world2 ∧
  connected Examples.store1 r.1.2.
Proof.
  split; [by vm_compute|].
  apply (Backup_appends_the_live_image Examples.store1 [Byte.xff] Examples.world2).
  - eexists. split; [by vm_compute|]. vm_compute. eauto.
  - vm_compute. reflexivity.
Defined.

(** X16: round trip: the bytes that [Backup] wrote into an empty
    buffer, given to [Restore] at any later time, bring back the
    database state that the store had when the backup was taken,
    whatever was executed in between. *)
Theorem Restore_of_Backup_round_trip s w w1 w2 w3 snapshot :
  connected s w → connected s w2 →
  Backup s ([], w) = ((snapshot, w1), Ok tt) →
  Restore s snapshot w2 = (w3, Ok tt) →
  live_data s w3 = live_data s w.
Proof.
  intros (c & Hc & Hlive) (c2 & Hc2 & Hlive2) HB HR.
  assert (c2 = c) as -> by congruence.
  destruct (Backup_Ok_buffer s [] w snapshot w1 c HB Hc Hlive) as [-> _].
  destruct (Restore_Ok_data s _ w2 w3 c HR Hc Hlive2) as [Hdata _].
  unfold live_data. rewrite Hc. simpl. by rewrite Hdata.
Qed.

Lemma Restore_of_Backup_round_trip_witness :
  let b := Backup Examples.store1 ([], Examples.world2) in
  let w2 := (Execute Examples.toy_execute Examples.store1 ["INSERT"] false b.1.2).1 in
  let w3 := (Restore Examples.store1 b.1.1 w2).1 in
  live_data Examples.store1 w2 ≠ live_data Examples.store1 Examples.world2 ∧
  live_data Examples.store1 w3 = live_data Examples.store1 Examples.world2.
Proof.
  split; [by vm_compute|].
  apply (Restore_of_Backup_round_trip Examples.store1 Examples.world2
           (Backup Examples.store1 ([], Examples.world2)).1.2
           (Execute Examples.toy_execute Examples.store1 ["INSERT"] false
              (Backup Examples.store1 ([], Examples.world2)).1.2).1
           (Restore Examples.store1 (Backup Examples.store1 ([], Examples.world2)).1.1
              (Execute Examples.toy_execute Examples.store1 ["INSERT"] false
                 (Backup Examples.store1 ([], Examples.world2)).1.2).1).1
           (Backup Examples.store1 ([], Examples.world2)).1.1).
  - eexists. split; [by vm_compute|]. vm_compute. eauto.
  - eexists. split; [by vm_compute|]. vm_compute. eauto.
  - vm_compute. reflexivity.
  - vm_compute. reflexivity.
Defined.

(** *** The counter and the temporary file of [Restore] *)







Lemma os_Remove_calm_gone name w :
  calm w → files (os_Remove name w).1 !! name = None.
Proof.
  unfold calm, os_Remove, bind, fault. intros ->. simpl.
  destruct (files w !! name) eqn:E; simpl; [apply lookup_delete_eq|done].
Qed.

Lemma calm_Restore_body s src f :
  preserves calm
    (defer (File_Close f)
       (_ <- File_Write f src ;;
        db <- sqlite_NewDB (File_Name f) "" false ;;
        conn <- DB_Connect db ;;
        defer (Conn_Close conn)
          (_ <- through (dbConn s) (λ c, Conn_Load c conn) ;;
           _ <- stats_Add numRestores 1 ;;
           ret tt))).
Proof.
  apply preserves_defer; [apply calm_File_Close|].
  apply preserves_bind; [apply calm_File_Write|]. intros n.
  apply preserves_bind; [apply calm_sqlite_NewDB|]. intros d.
  apply preserves_bind; [apply calm_DB_Connect|]. intros conn.
  apply preserves_defer; [apply calm_Conn_Close|].
  apply preserves_bind; [apply preserves_through; intros c; apply calm_Conn_Load|].
  intros [].
  apply preserves_bind; [apply calm_stats_Add|]. intros [].
  apply preserves_ret.
Qed.

(** X18: in an environment whose calls do not fail, the temporary file
    of [Restore] does not outlive the call, however the call ends, also
    when it panics: the deferred [os.Remove] runs last. *)
Theorem Restore_removes_its_temp_file s src w :
  calm w →
  files w !! temp_name w = None ∧
  files (Restore s src w).1 !! temp_name w = None.
Proof.
  intros Hcalm. split; [apply temp_name_fresh|].
  destruct (Restore s src w) as [w' r] eqn:H. simpl.
  unfold Restore in H. unfold bind at 1 in H.
  destruct (ioutil_TempFile "" "rqlilte-snap-" w) as [w1 [f| |]] eqn:Htemp.
  - pose proof (calm_ioutil_TempFile _ _ _ _ _ Htemp Hcalm) as Hcalm1.
    apply ioutil_TempFile_Ok_full in Htemp as (Hname & _ & _).
    apply defer_inv in H as (w2 & H & ->).
    pose proof (calm_Restore_body s src f _ _ _ H Hcalm1) as Hcalm2.
    rewrite Hname. by apply os_Remove_calm_gone.
  - exfalso. revert Htemp. unfold ioutil_TempFile, bind, fault.
    unfold calm in Hcalm. by rewrite Hcalm.
  - exfalso. revert Htemp. unfold ioutil_TempFile, bind, fault.
    unfold calm in Hcalm. by rewrite Hcalm.
Qed.

Lemma Restore_removes_its_temp_file_witness :
  files Examples.world2 !! temp_name Examples.world2 = None ∧
  files (Restore Examples.store1 [Byte.x07] Examples.world2).1
    !! temp_name Examples.world2 = None.
Proof.
  apply (Restore_removes_its_temp_file Examples.store1 [Byte.x07] Examples.world2).
  reflexivity.
Defined.

(** ** The endpoint: what an outcome tells the caller *)

Section EndpointMore.
Import Endpoint.
Variable Srv : Type.
Variable raftApply : MessageType → Args → M Srv iface.

(** X19: what the outcome of [Execute] tells its caller.  The server is
    left as [raftApply] left it.  A nil return means that the entry was
    applied and that the reply is the store's response, with no overall
    error.  The reply is written only with the store's response.  An
    error that is returned is the error of [raftApply], an error value
    handed back for the entry, or the overall error of the response.
    A panic is one of [raftApply] or the endpoint's own, on a value
    that is neither an execute response nor an error. *)
Theorem Execute_outcome_tells_what_happened args reply srv :
  let out := SQL_Execute Srv raftApply args (reply, srv) in
  let ra := raftApply SQLExecuteRequestType (ExecuteArgs args) srv in
  out.1.2 = ra.1 ∧
  (out.2 = Ok tt → ra.2 = Ok (IExecuteResponse out.1.1) ∧ E_Err out.1.1 = None) ∧
  (out.1.1 ≠ reply → ra.2 = Ok (IExecuteResponse out.1.1)) ∧
  (∀ e, out.2 = Err e →
        ra.2 = Err e ∨ ra.2 = Ok (IError e) ∨
        (ra.2 = Ok (IExecuteResponse out.1.1) ∧ E_Err out.1.1 = Some e)) ∧
  (∀ m, out.2 = Panic m →
        ra.2 = Panic m ∨
        (m = "unsupported type" ∧ (ra.2 = Ok IOther ∨ ∃ r, ra.2 = Ok (IQueryResponse r)))).
Proof.
  unfold SQL_Execute, execute, bind, env. simpl.
  destruct (raftApply SQLExecuteRequestType (ExecuteArgs args) srv)
    as [srv' [[r|r|e|]|e|m]]; simpl.
  1: destruct (E_Err r) as [e|] eqn:Hr; simpl.
  all: split_and!; try done; try congruence; intros; simplify_eq; eauto 6.
Qed.

(** X20: the same of [Query]. *)
Theorem Query_outcome_tells_what_happened args reply srv :
  let out := SQL_Query Srv raftApply args (reply, srv) in
  let ra := raftApply SQLQueryRequestType (QueryArgs args) srv in
  out.1.2 = ra.1 ∧
  (out.2 = Ok tt → ra.2 = Ok (IQueryResponse out.1.1) ∧ Q_Err out.1.1 = None) ∧
  (out.1.1 ≠ reply → ra.2 = Ok (IQueryResponse out.1.1)) ∧
  (∀ e, out.2 = Err e →
        ra.2 = Err e ∨ ra.2 = Ok (IError e) ∨
        (ra.2 = Ok (IQueryResponse out.1.1) ∧ Q_Err out.1.1 = Some e)) ∧
  (∀ m, out.2 = Panic m →
        ra.2 = Panic m ∨
        (m = "unsupported type" ∧ (ra.2 = Ok IOther ∨ ∃ r, ra.2 = Ok (IExecuteResponse r)))).
Proof.
  unfold SQL_Query, query, bind, env. simpl.
  destruct (raftApply SQLQueryRequestType (QueryArgs args) srv)
    as [srv' [[r|r|e|]|e|m]]; simpl.
  2: destruct (Q_Err r) as [e|] eqn:Hr; simpl.
  all: split_and!; try done; try congruence; intros; simplify_eq; eauto 6.
Qed.
End EndpointMore.

Section DraftMore.
Import Endpoint.
Variable Srv : Type.
Variable raftApply : MessageType → Args → Srv → Srv * EndpointDraft.Future.

(** X21: the two versions of the endpoint agree: the draft, which reads
    the raft future itself, is the endpoint over a [raftApply] that
    waits for the future, returns its response, and returns its error
    with raft's not-leader error replaced by the package's.  So a
    future that failed makes the draft return that error, the
    not-leader error translated, without looking at the response and
    with the reply untouched. *)
Theorem draft_is_the_endpoint_over_the_future :
  (∀ args st, EndpointDraft.execute Srv raftApply args st
              = execute Srv (await raftApply) args st) ∧
  (∀ args st, EndpointDraft.query Srv raftApply args st
              = query Srv (await raftApply) args st) ∧
  (∀ args reply srv e,
     EndpointDraft.Future_Error (raftApply SQLExecuteRequestType (ExecuteArgs args) srv).2
       = Some e →
     EndpointDraft.execute Srv raftApply args (reply, srv)
     = ((reply, (raftApply SQLExecuteRequestType (ExecuteArgs args) srv).1),
        Err (if decide (e = RaftErrNotLeader) then ErrNotLeader else e))) ∧
  (∀ args reply srv e,
     EndpointDraft.Future_Error (raftApply SQLQueryRequestType (QueryArgs args) srv).2
       = Some e →
     EndpointDraft.query Srv raftApply args (reply, srv)
     = ((reply, (raftApply SQLQueryRequestType (QueryArgs args) srv).1),
        Err (if decide (e = RaftErrNotLeader) then ErrNotLeader else e))).
Proof.
  split_and!.
  - intros args [reply srv].
    unfold EndpointDraft.execute, execute, EndpointDraft.future_error, await, bind, env.
    destruct (raftApply _ _ srv) as [srv' [[e|] resp]]; simpl; [by case_decide|done].
  - intros args [reply srv].
    unfold EndpointDraft.query, query, EndpointDraft.future_error, await, bind, env.
    destruct (raftApply _ _ srv) as [srv' [[e|] resp]]; simpl; [by case_decide|done].
  - intros args reply srv e.
    unfold EndpointDraft.execute, EndpointDraft.future_error, bind, env.
    destruct (raftApply _ _ srv) as [srv' [fe resp]]; simpl. intros ->.
    by case_decide.
  - intros args reply srv e.
    unfold EndpointDraft.query, EndpointDraft.future_error, bind, env.
    destruct (raftApply _ _ srv) as [srv' [fe resp]]; simpl. intros ->.
    by case_decide.
Qed.
End DraftMore.

(** ** Concurrent calls: the lock is released *)

Section ConcurrentMore.
Import Concurrent.
Variable sql_execute :
  bytes → list string → bool → bool → bytes * (list SQLResult * option error).
Variable sql_query :
  bytes → list string → bool → bool → list SQLRows * option error.

End ConcurrentMore.

